(** * Word scoring: [pointsForWord] of [src/utils.js]

    The module [JS] embeds the part of the ECMAScript runtime that the
    function relies on: strings as sequences of UTF-16 code units, the
    string iterator behind [for ... of], the default case conversions,
    the matching of a character-class regular expression, and a store
    of objects for the computations that create or change them.
    The module [Utils] embeds [src/utils.js] itself and states its
    properties. *)

From Stdlib Require Import ZArith List Bool Lia String Ascii FunInd Permutation.
Import ListNotations.
Local Open Scope Z_scope.

Module JS.

(** ** Strings

    A String value is a finite sequence of 16-bit code units. *)

Definition JSString := list Z.

(** A source literal made of ASCII characters, as its code units. *)
Definition lit (s : string) : JSString :=
  map (fun a => Z.of_N (N_of_ascii a)) (list_ascii_of_string s).

Definition isLeadingSurrogate (cu : Z) : bool :=
  (0xD800 <=? cu) && (cu <=? 0xDBFF).

Definition isTrailingSurrogate (cu : Z) : bool :=
  (0xDC00 <=? cu) && (cu <=? 0xDFFF).

Definition UTF16SurrogatePairToCodePoint (lead trail : Z) : Z :=
  (lead - 0xD800) * 0x400 + (trail - 0xDC00) + 0x10000.

Definition UTF16EncodeCodePoint (cp : Z) : JSString :=
  if cp <=? 0xFFFF then [cp]
  else [ (cp - 0x10000) / 0x400 + 0xD800 ; (cp - 0x10000) mod 0x400 + 0xDC00 ].

Definition CodePointsToString (cps : list Z) : JSString :=
  flat_map UTF16EncodeCodePoint cps.

(** The values produced by iterating a string with [for (const char of s)]:
    at each position a well-formed surrogate pair is yielded as one
    two-unit string, anything else (a lone surrogate included) as a
    one-unit string. *)
Function stringIterator (s : JSString) {struct s} : list JSString :=
  match s with
  | [] => []
  | first :: rest =>
      if isLeadingSurrogate first then
        match rest with
        | [] => [[first]]
        | second :: rest' =>
            if isTrailingSurrogate second
            then [first; second] :: stringIterator rest'
            else [first] :: stringIterator rest
        end
      else [first] :: stringIterator rest
  end.

(** The code point of one iterated element. *)
Definition codePointOf (char : JSString) : Z :=
  match char with
  | [lead; trail] => UTF16SurrogatePairToCodePoint lead trail
  | cu :: _ => cu
  | [] => 0
  end.

Definition StringToCodePoints (s : JSString) : list Z :=
  map codePointOf (stringIterator s).

(** ** Case conversion

    The Unicode default case conversion maps every code point to a
    sequence of code points; the mapping of a code point may depend on
    the code points before and after it.  For the code points below 128
    the mapping is fixed here; for the others it is the Unicode Character
    Database's, which the definitions take as an argument. *)

Definition CaseMapping := list Z -> Z -> list Z -> list Z.

Definition asciiUpper (c : Z) : Z :=
  if (97 <=? c) && (c <=? 122) then c - 32 else c.

Definition asciiLower (c : Z) : Z :=
  if (65 <=? c) && (c <=? 90) then c + 32 else c.

Fixpoint caseConvert (ascii : Z -> Z) (data : CaseMapping)
         (before cps : list Z) : list Z :=
  match cps with
  | [] => []
  | c :: after =>
      (if c <? 128 then [ascii c] else data before c after)
        ++ caseConvert ascii data (before ++ [c]) after
  end.

Definition toUppercase (upperData : CaseMapping) (cps : list Z) : list Z :=
  caseConvert asciiUpper upperData [] cps.

Definition toLowercase (lowerData : CaseMapping) (cps : list Z) : list Z :=
  caseConvert asciiLower lowerData [] cps.

(** [String.prototype.toUpperCase] and [String.prototype.toLowerCase]. *)
Definition toUpperCase (upperData : CaseMapping) (s : JSString) : JSString :=
  CodePointsToString (toUppercase upperData (StringToCodePoints s)).

Definition toLowerCase (lowerData : CaseMapping) (s : JSString) : JSString :=
  CodePointsToString (toLowercase lowerData (StringToCodePoints s)).

(** An excerpt of the Unicode Character Database (UnicodeData.txt and
    SpecialCasing.txt), enough to run the definitions on examples:
    U+00DF sharp s, U+00E0 a grave, U+00E9 e acute, U+0131 dotless i,
    U+0149 n preceded by apostrophe, U+017F long s.  The excerpt leaves
    every other code point as it is; the general statements below hold
    for any table. *)
Definition upperExcerpt : CaseMapping := fun _ c _ =>
  if c =? 0xDF then [0x53; 0x53]
  else if c =? 0xE0 then [0xC0]
  else if c =? 0xE9 then [0xC9]
  else if c =? 0x131 then [0x49]
  else if c =? 0x149 then [0x2BC; 0x4E]
  else if c =? 0x17F then [0x53]
  else [c].

(** U+00C0 A grave, U+00C9 E acute, U+0130 I with dot above,
    U+212A Kelvin sign, U+212B Angstrom sign. *)
Definition lowerExcerpt : CaseMapping := fun _ c _ =>
  if c =? 0xC0 then [0xE0]
  else if c =? 0xC9 then [0xE9]
  else if c =? 0x130 then [0x69; 0x307]
  else if c =? 0x212A then [0x6B]
  else if c =? 0x212B then [0xE5]
  else [c].

(** ** Regular expressions

    The only pattern of the source is one character class, so a RegExp
    object is its class, its flags and its [lastIndex]. *)

Record RegExp := mkRegExp {
  classChars : list Z;
  ignoreCase : bool;
  global : bool;
  sticky : bool;
  lastIndex : Z
}.

Definition setLastIndex (R : RegExp) (i : Z) : RegExp :=
  mkRegExp (classChars R) (ignoreCase R) (global R) (sticky R) i.

Section Matching.

Variable upperData : CaseMapping.

(** [Canonicalize] of a pattern without the [u] flag. *)
Definition Canonicalize (ic : bool) (ch : Z) : Z :=
  if negb ic then ch
  else
    match CodePointsToString (toUppercase upperData [ch]) with
    | [cu] => if (128 <=? ch) && (cu <? 128) then ch else cu
    | _ => ch
    end.

(** [CharacterSetMatcher]: does the class accept the code unit [ch]? *)
Definition classAccepts (R : RegExp) (ch : Z) : bool :=
  existsb (fun a => Canonicalize (ignoreCase R) a =? Canonicalize (ignoreCase R) ch)
          (classChars R).

(** One attempt at index [e], the input from [e] on being [suffix]:
    the end index of the match, if any. *)
Definition matchAt (R : RegExp) (suffix : JSString) (e : Z) : option Z :=
  match suffix with
  | [] => None
  | ch :: _ => if classAccepts R ch then Some (e + 1) else None
  end.

(** The loop of [RegExpBuiltinExec]: try at [i], else advance by one
    code unit unless the expression is sticky. *)
Fixpoint execLoop (R : RegExp) (suffix : JSString) (i : Z) : option (Z * Z) :=
  match matchAt R suffix i with
  | Some e => Some (i, e)
  | None =>
      if sticky R then None
      else match suffix with
           | [] => None
           | _ :: rest => execLoop R rest (i + 1)
           end
  end.

Definition RegExpBuiltinExec (R : RegExp) (input : JSString)
  : option (Z * Z) * RegExp :=
  let stateful := global R || sticky R in
  let start := if stateful then Z.max 0 (lastIndex R) else 0 in
  if Z.of_nat (List.length input) <? start then
    (None, if stateful then setLastIndex R 0 else R)
  else
    match execLoop R (skipn (Z.to_nat start) input) start with
    | Some (b, e) => (Some (b, e), if stateful then setLastIndex R e else R)
    | None => (None, if stateful then setLastIndex R 0 else R)
    end.

(** [RegExp.prototype.test]: the answer and the object afterwards. *)
Definition test (R : RegExp) (input : JSString) : bool * RegExp :=
  let (r, R') := RegExpBuiltinExec R input in
  (match r with Some _ => true | None => false end, R').

End Matching.

(** ** Values and completions *)

Inductive JSValue :=
| JSUndefined
| JSNull
| JSBoolean (b : bool)
| JSNumber (n : Z)
| JSStr (s : JSString).

Inductive Error := TypeError.

Inductive Completion (A : Type) :=
| Normal (a : A)
| Throw (e : Error).
Arguments Normal {A} a.
Arguments Throw {A} e.

Definition bind {A B} (c : Completion A) (k : A -> Completion B) : Completion B :=
  match c with
  | Normal a => k a
  | Throw e => Throw e
  end.

(** What [for ... of] iterates: of the primitive values only a string
    is iterable. *)
Definition GetIterator (v : JSValue) : Completion (list JSString) :=
  match v with
  | JSStr s => Normal (stringIterator s)
  | _ => Throw TypeError
  end.

(** ** The store

    Objects live in a store and are reached through references,
    positions in the store.  The state of a computation is the store;
    a computation returns a completion and the store it leaves. *)

Inductive Object :=
| ORegExp (R : RegExp)
| OOrdinary (properties : list (string * Z)).

Definition Heap := list Object.

Definition State (A : Type) := Heap -> Completion A * Heap.

Definition ret {A} (a : A) : State A := fun h => (Normal a, h).

Definition bindS {A B} (m : State A) (k : A -> State B) : State B :=
  fun h =>
    match m h with
    | (Normal a, h') => k a h'
    | (Throw e, h') => (Throw e, h')
    end.

Definition lift {A} (c : Completion A) : State A := fun h => (c, h).

Notation "x <- m ;; k" := (bindS m (fun x => k))
  (at level 61, m at next level, right associativity).

(** Writing the object at a reference. *)
Fixpoint store (h : Heap) (ref : nat) (o : Object) : Heap :=
  match h, ref with
  | [], _ => []
  | _ :: h', O => o :: h'
  | x :: h', S ref' => x :: store h' ref' o
  end.

(** Evaluating a regular expression literal makes a new object. *)
Definition RegExpLiteral (R : RegExp) : State nat :=
  fun h => (Normal (List.length h), h ++ [ORegExp R]).

(** [RegExp.prototype.test] called on the object at [this]: a TypeError
    unless it is a RegExp object; the object is left as the match
    leaves it. *)
Definition RegExp_prototype_test (upperData : CaseMapping)
           (this : nat) (arg : JSString) : State bool :=
  fun h =>
    match nth_error h this with
    | Some (ORegExp R) =>
        let (b, R') := test upperData R arg in
        (Normal b, store h this (ORegExp R'))
    | _ => (Throw TypeError, h)
    end.

(** [for (const char of ...) body], the body acting on the local
    variable it updates. *)
Fixpoint forOf {A} (body : A -> JSString -> State A)
         (chars : list JSString) (acc : A) : State A :=
  match chars with
  | [] => ret acc
  | char :: rest => acc' <- body acc char ;; forOf body rest acc'
  end.

End JS.

Module Utils.
Import JS.

(** The literal [/[aeiou]/i]; evaluating it makes a fresh object. *)
Definition vowelRegExp : RegExp :=
  {| classChars := lit "aeiou"; ignoreCase := true;
     global := false; sticky := false; lastIndex := 0 |}.

Section PointsForWord.

Variable upperData : CaseMapping.

(** [points += /[aeiou]/i.test(char) ? 1 : 2] *)
Definition addPoints (points : Z) (char : JSString) : Z :=
  points + (if fst (test upperData vowelRegExp char) then 1 else 2).

(** The body of the function, once the argument is being iterated. *)
Definition pointsLoop (chars : list JSString) : Z :=
  fold_left addPoints chars 0.

(** [pointsForWord] on a string. *)
Definition pointsForWord (word : JSString) : Z :=
  pointsLoop (stringIterator word).

(** [pointsForWord] on any primitive value. *)
Definition pointsForWord_call (word : JSValue) : Completion Z :=
  bind (GetIterator word) (fun chars => Normal (pointsLoop chars)).

End PointsForWord.

(** ** Auxiliary definitions *)

(** The ten code units that the class accepts. *)
Definition isVowel (ch : Z) : bool :=
  existsb (Z.eqb ch) (lit "aeiouAEIOU").

(** The points of one iterated element. *)
Definition charPoints (char : JSString) : Z :=
  if existsb isVowel char then 1 else 2.

Fixpoint Zsum (l : list Z) : Z :=
  match l with
  | [] => 0
  | x :: l' => x + Zsum l'
  end.

(** ** Characters *)

(** An iterated element is one code unit or a well-formed pair. *)
Inductive IsChar : JSString -> Prop :=
| IsChar_unit c : IsChar [c]
| IsChar_pair lead trail :
    isLeadingSurrogate lead = true ->
    isTrailingSurrogate trail = true ->
    IsChar [lead; trail].

(** Concatenation joins two elements exactly when the left string ends
    with a leading surrogate and the right one starts with a trailing
    surrogate. *)
Definition joinsPair (w1 w2 : JSString) : bool :=
  isLeadingSurrogate (last w1 0) && isTrailingSurrogate (hd 0 w2).

(** A Unicode scalar value: a code point that is not a surrogate. *)
Definition isScalarValue (cp : Z) : Prop :=
  0 <= cp <= 0x10FFFF /\ isLeadingSurrogate cp = false
  /\ isTrailingSurrogate cp = false.

(** A letter of the ASCII alphabet. *)
Definition isAsciiLetter (c : Z) : bool :=
  ((65 <=? c) && (c <=? 90)) || ((97 <=? c) && (c <=? 122)).

(** ** The score in the words of the specification *)

(** A vowel of the specification: one of a, e, i, o, u, in either case. *)
Definition SpecVowel (char : JSString) : Prop :=
  exists v, In v (lit "aeiou") /\ (char = [v] \/ char = [asciiUpper v]).

Definition specVowels : list JSString :=
  [lit "a"; lit "e"; lit "i"; lit "o"; lit "u"].

(** The characters of a word: a sequence of code points in which no
    leading surrogate stands right before a trailing surrogate, so
    that the sequence is what its UTF-16 encoding spells. *)
Definition isCodePoint (cp : Z) : Prop := 0 <= cp <= 0x10FFFF.

Fixpoint separated (cps : list Z) : bool :=
  match cps with
  | [] => true
  | cp :: rest =>
      negb (isLeadingSurrogate cp && isTrailingSurrogate (hd 0 rest))
      && separated rest
  end.

Definition Characters (cps : list Z) : Prop :=
  Forall isCodePoint cps /\ separated cps = true.

(** 1 if the character, lower-cased, is one of a, e, i, o, u; else 2. *)
Definition specPointsOf (lowerData : CaseMapping) (cp : Z) : Z :=
  if in_dec (list_eq_dec Z.eq_dec)
            (toLowercase lowerData [cp]) (map (fun v => [v]) (lit "aeiou"))
  then 1 else 2.

(** The sum over all characters of the word. *)
Definition specScore (lowerData : CaseMapping) (cps : list Z) : Z :=
  Zsum (map (specPointsOf lowerData) cps).

(** A case conversion keeps the characters of a word apart when it
    maps every character outside ASCII, where it stands, to one scalar
    value that is not an ASCII vowel. *)
Fixpoint caseStable (data : CaseMapping) (before cps : list Z) : bool :=
  match cps with
  | [] => true
  | c :: after =>
      ((c <? 128)
       || match data before c after with
          | [d] => (0 <=? d) && (d <=? 0x10FFFF)
                   && negb (isLeadingSurrogate d)
                   && negb (isTrailingSurrogate d)
                   && negb (isVowel d)
          | _ => false
          end)
      && caseStable data (before ++ [c]) after
  end.

(** ** The function on an explicit store *)

(** [points += /[aeiou]/i.test(char) ? 1 : 2]: the literal is evaluated,
    [test] is called on the new object, [points] is updated. *)
Definition loopBody (upperData : CaseMapping)
           (points : Z) (char : JSString) : State Z :=
  re <- RegExpLiteral vowelRegExp ;;
  found <- RegExp_prototype_test upperData re char ;;
  ret (points + (if found then 1 else 2)).

(** [pointsForWord(word)] run in a store. *)
Definition pointsForWord_run (upperData : CaseMapping) (word : JSValue)
  : State Z :=
  chars <- lift (GetIterator word) ;;
  forOf (loopBody upperData) chars 0.

(** ** Earlier versions of the function (README.md)

    The lesson reaches [src/utils.js] in three steps; the first two are
    embedded here to compare them with the final one. *)

(** [Array.prototype.includes] on an array of strings: two strings are
    the same value when their code units are. *)
Definition includes (arr : list JSString) (x : JSString) : bool :=
  existsb (fun y => if list_eq_dec Z.eq_dec y x then true else false) arr.

(** The array [["a", "e", "i", "o", "u"]]. *)
Definition vowelArray : list JSString :=
  [lit "a"; lit "e"; lit "i"; lit "o"; lit "u"].

(** [if (["a", "e", "i", "o", "u"].includes(char)) points += 1;
     else points += 2;] *)
Definition addPoints_includes (points : Z) (char : JSString) : Z :=
  if includes vowelArray char then points + 1 else points + 2.

(** The first version, with [includes]. *)
Definition pointsForWord_includes (word : JSString) : Z :=
  fold_left addPoints_includes (stringIterator word) 0.

(** The literal [/[aeiou]/], without the [i] flag. *)
Definition lowerVowelRegExp : RegExp :=
  {| classChars := lit "aeiou"; ignoreCase := false;
     global := false; sticky := false; lastIndex := 0 |}.

(** [points += /[aeiou]/.test(char) ? 1 : 2] *)
Definition addPoints_caseSensitive (upperData : CaseMapping)
           (points : Z) (char : JSString) : Z :=
  points + (if fst (test upperData lowerVowelRegExp char) then 1 else 2).

(** The second version, with a case-sensitive regular expression. *)
Definition pointsForWord_caseSensitive (upperData : CaseMapping)
           (word : JSString) : Z :=
  fold_left (addPoints_caseSensitive upperData) (stringIterator word) 0.

(** ** The test suite ([src/__tests__/utils.test.js])

    [expect(points).toBe(7)] compares the two numbers with [Object.is];
    a test passes when its expectation holds. *)

Definition toBe (received expected : Z) : bool := received =? expected.

Definition it (name : string) (passes : bool) : string * bool := (name, passes).

(** [describe("pointsForWord", ...)], run against an implementation. *)
Definition utils_test (pointsForWord : JSString -> Z) : list (string * bool) :=
  [ it "calculates the total points for a word (1 point per vowel, 2 per consonant)"
       (let word := lit "test" in
        let points := pointsForWord word in
        toBe points 7);
    it "handles uppercase and lowercase input"
       (let word := lit "tEsT" in
        let points := pointsForWord word in
        toBe points 7) ].

(** ** Counting *)

Definition isLowerVowel (c : Z) : bool := existsb (Z.eqb c) (lit "aeiou").

Definition isUpperVowel (c : Z) : bool := existsb (Z.eqb c) (lit "AEIOU").

(** The number of code units of [w] that satisfy [p]. *)
Fixpoint count (p : Z -> bool) (w : JSString) : Z :=
  match w with
  | [] => 0
  | c :: w' => (if p c then 1 else 0) + count p w'
  end.

(** Two strings that differ only in the case of ASCII letters. *)
Definition caselessEq (w1 w2 : JSString) : Prop :=
  Forall2 (fun a b => asciiLower a = asciiLower b) w1 w2.

(** The running total after [k] turns of the loop on [word]. *)
Definition pointsAfter (upperData : CaseMapping) (k : nat) (word : JSString) : Z :=
  fold_left (addPoints upperData) (firstn k (stringIterator word)) 0.

(** ** The vowel test, unfolded *)

Lemma isVowel_spec ch :
  isVowel ch = true <->
  ch = 97 \/ ch = 101 \/ ch = 105 \/ ch = 111 \/ ch = 117 \/
  ch = 65 \/ ch = 69 \/ ch = 73 \/ ch = 79 \/ ch = 85.
Proof.
  unfold isVowel; cbn [lit list_ascii_of_string map existsb].
  rewrite !orb_true_iff, !Z.eqb_eq. cbn. lia.
Qed.

Lemma isVowel_ascii ch : isVowel ch = true -> 65 <= ch <= 117.
Proof. rewrite isVowel_spec; lia. Qed.

Section Unfolding.

Variable upperData : CaseMapping.

Lemma Canonicalize_ascii ch :
  ch < 128 -> Canonicalize upperData true ch = asciiUpper ch.
Proof.
  intros Hch. unfold Canonicalize, toUppercase; cbn.
  destruct (Z.ltb_spec ch 128) as [_|]; [|lia].
  cbn. unfold UTF16EncodeCodePoint.
  assert (Hup : asciiUpper ch <= 0xFFFF).
  { unfold asciiUpper. destruct (_ && _); lia. }
  destruct (Z.leb_spec (asciiUpper ch) 0xFFFF) as [_|]; [|lia].
  cbn. destruct (Z.leb_spec 128 ch); [lia|reflexivity].
Qed.

Lemma Canonicalize_nonascii ch :
  128 <= ch -> 128 <= Canonicalize upperData true ch.
Proof.
  intros Hch. unfold Canonicalize; cbn [negb].
  destruct (CodePointsToString _) as [|cu [|? ?]]; try lia.
  destruct (Z.leb_spec 128 ch); [|lia].
  destruct (Z.ltb_spec cu 128); cbn; lia.
Qed.

Lemma classAccepts_vowel ch :
  classAccepts upperData vowelRegExp ch = isVowel ch.
Proof.
  unfold classAccepts; cbn [vowelRegExp classChars ignoreCase].
  set (cc := Canonicalize upperData true ch).
  assert (Hcc : ch < 128 /\ cc = asciiUpper ch \/ 128 <= ch /\ 128 <= cc).
  { destruct (Z.lt_ge_cases ch 128) as [Hlt|Hge]; [left|right]; split; trivial.
    - now apply Canonicalize_ascii.
    - now apply Canonicalize_nonascii. }
  clearbody cc.
  cbn [lit list_ascii_of_string map existsb].
  rewrite !Canonicalize_ascii by (cbn; lia).
  apply eq_true_iff_eq. rewrite isVowel_spec.
  rewrite !orb_true_iff, !Z.eqb_eq. cbn.
  unfold asciiUpper in Hcc.
  destruct (Z.leb_spec 97 ch), (Z.leb_spec ch 122); cbn in Hcc; lia.
Qed.

Lemma execLoop_existsb R s i :
  sticky R = false ->
  match execLoop upperData R s i with Some _ => true | None => false end
  = existsb (classAccepts upperData R) s.
Proof.
  intros Hst. revert i.
  induction s as [|ch s IH]; intros i; cbn; rewrite ?Hst; [reflexivity|].
  destruct (classAccepts upperData R ch); cbn; [reflexivity|].
  apply IH.
Qed.

Lemma test_stateless R s :
  global R = false -> sticky R = false ->
  test upperData R s = (existsb (classAccepts upperData R) s, R).
Proof.
  intros Hg Hst. unfold test, RegExpBuiltinExec.
  rewrite Hg, Hst; cbn [orb skipn Z.to_nat].
  destruct (Z.ltb_spec (Z.of_nat (List.length s)) 0) as [Hneg|_]; [lia|].
  rewrite <- (execLoop_existsb R s 0 Hst).
  destruct (execLoop upperData R s 0) as [[b e]|]; reflexivity.
Qed.

Lemma test_vowelRegExp char :
  test upperData vowelRegExp char = (existsb isVowel char, vowelRegExp).
Proof.
  rewrite test_stateless by reflexivity. f_equal.
  induction char as [|c char IH]; cbn [existsb]; [reflexivity|].
  now rewrite classAccepts_vowel, IH.
Qed.

Lemma addPoints_charPoints points char :
  addPoints upperData points char = points + charPoints char.
Proof. unfold addPoints, charPoints. now rewrite test_vowelRegExp. Qed.

Lemma fold_addPoints chars acc :
  fold_left (addPoints upperData) chars acc
  = acc + Zsum (map charPoints chars).
Proof.
  revert acc. induction chars as [|char chars IH]; intros acc; cbn.
  - lia.
  - rewrite IH, addPoints_charPoints. lia.
Qed.

Lemma pointsLoop_sum chars :
  pointsLoop upperData chars = Zsum (map charPoints chars).
Proof. unfold pointsLoop. now rewrite fold_addPoints. Qed.

Lemma pointsForWord_sum word :
  pointsForWord upperData word
  = Zsum (map charPoints (stringIterator word)).
Proof. apply pointsLoop_sum. Qed.

End Unfolding.

(** ** The string iterator *)

Lemma stringIterator_IsChar s :
  Forall IsChar (stringIterator s).
Proof.
  functional induction (stringIterator s); repeat constructor; auto.
Qed.

Lemma stringIterator_length s :
  (List.length (stringIterator s) <= List.length s)%nat.
Proof.
  functional induction (stringIterator s); cbn in *; lia.
Qed.

(** Without leading surrogates every code unit is an element. *)
Lemma stringIterator_units s :
  Forall (fun c => isLeadingSurrogate c = false) s ->
  stringIterator s = map (fun c => [c]) s.
Proof.
  induction 1 as [|c s Hc _ IH]; cbn; [reflexivity|].
  now rewrite Hc, IH.
Qed.

Lemma stringIterator_app w1 w2 :
  joinsPair w1 w2 = false ->
  stringIterator (w1 ++ w2) = stringIterator w1 ++ stringIterator w2.
Proof.
  functional induction (stringIterator w1); intros Hj.
  - reflexivity.
  - unfold joinsPair in Hj; cbn in Hj. rewrite e0 in Hj; cbn in Hj.
    cbn. rewrite e0. destruct w2 as [|t w2]; [reflexivity|].
    cbn in Hj. now rewrite Hj.
  - cbn. rewrite e0, e2. f_equal. apply IHl.
    destruct rest' as [|d r]; [reflexivity|exact Hj].
  - change (stringIterator (first :: second :: (rest' ++ w2))
            = ([first] :: stringIterator (second :: rest')) ++ stringIterator w2).
    rewrite stringIterator_equation, e0, e2.
    cbn [app]. f_equal. apply IHl. exact Hj.
  - cbn. rewrite e0. f_equal. apply IHl.
    destruct rest as [|d r]; [reflexivity|exact Hj].
Qed.

(** ** Points of one element *)

Lemma isVowel_not_lead c : isLeadingSurrogate c = true -> isVowel c = false.
Proof.
  unfold isLeadingSurrogate. rewrite andb_true_iff, !Z.leb_le. intros H.
  destruct (isVowel c) eqn:Hv; [|reflexivity].
  apply isVowel_ascii in Hv. lia.
Qed.

Lemma isVowel_not_trail c : isTrailingSurrogate c = true -> isVowel c = false.
Proof.
  unfold isTrailingSurrogate. rewrite andb_true_iff, !Z.leb_le. intros H.
  destruct (isVowel c) eqn:Hv; [|reflexivity].
  apply isVowel_ascii in Hv. lia.
Qed.

Lemma charPoints_unit c : charPoints [c] = if isVowel c then 1 else 2.
Proof. unfold charPoints; cbn [existsb]. now rewrite orb_false_r. Qed.

Lemma charPoints_pair lead trail :
  isLeadingSurrogate lead = true -> isTrailingSurrogate trail = true ->
  charPoints [lead; trail] = 2.
Proof.
  intros Hl Ht. unfold charPoints; cbn [existsb].
  now rewrite (isVowel_not_lead _ Hl), (isVowel_not_trail _ Ht).
Qed.

Lemma charPoints_range char : IsChar char -> 1 <= charPoints char <= 2.
Proof.
  intros [c|l t Hl Ht].
  - rewrite charPoints_unit. destruct (isVowel c); lia.
  - rewrite charPoints_pair by assumption. lia.
Qed.

Lemma Zsum_app l1 l2 : Zsum (l1 ++ l2) = Zsum l1 + Zsum l2.
Proof. induction l1 as [|x l1 IH]; cbn; lia. Qed.

(** ** Encoding of code points *)

Lemma encode_supplementary cp :
  0x10000 <= cp <= 0x10FFFF ->
  exists lead trail,
    UTF16EncodeCodePoint cp = [lead; trail]
    /\ isLeadingSurrogate lead = true /\ isTrailingSurrogate trail = true.
Proof.
  intros Hcp. unfold UTF16EncodeCodePoint.
  destruct (Z.leb_spec cp 0xFFFF); [lia|].
  eexists _, _; split; [reflexivity|].
  unfold isLeadingSurrogate, isTrailingSurrogate.
  rewrite !andb_true_iff, !Z.leb_le.
  pose proof (Z.div_pos (cp - 0x10000) 0x400).
  pose proof (Z.div_lt_upper_bound (cp - 0x10000) 0x400 0x400).
  pose proof (Z.mod_pos_bound (cp - 0x10000) 0x400).
  lia.
Qed.

Lemma encode_bmp cp : cp <= 0xFFFF -> UTF16EncodeCodePoint cp = [cp].
Proof.
  intros H. unfold UTF16EncodeCodePoint.
  destruct (Z.leb_spec cp 0xFFFF); [reflexivity|lia].
Qed.

Lemma stringIterator_one c : stringIterator [c] = [[c]].
Proof. cbn. now destruct (isLeadingSurrogate c). Qed.

Lemma stringIterator_pair lead trail rest :
  isLeadingSurrogate lead = true -> isTrailingSurrogate trail = true ->
  stringIterator (lead :: trail :: rest) = [lead; trail] :: stringIterator rest.
Proof. intros Hl Ht. rewrite stringIterator_equation. now rewrite Hl, Ht. Qed.

(** The encoding of a code point is iterated as one element. *)
Lemma stringIterator_encode cp :
  0 <= cp <= 0x10FFFF ->
  stringIterator (UTF16EncodeCodePoint cp) = [UTF16EncodeCodePoint cp].
Proof.
  intros Hcp. destruct (Z.le_gt_cases cp 0xFFFF) as [Hb|Hs].
  - rewrite encode_bmp by assumption. apply stringIterator_one.
  - destruct (encode_supplementary cp) as (l & t & -> & Hl & Ht); [lia|].
    now rewrite stringIterator_pair.
Qed.

Lemma lead_not_trail c :
  isLeadingSurrogate c = true -> isTrailingSurrogate c = false.
Proof.
  unfold isLeadingSurrogate, isTrailingSurrogate.
  rewrite andb_true_iff, andb_false_iff, !Z.leb_le, !Z.leb_gt. lia.
Qed.

(** The encoding of a scalar value never joins with its neighbours. *)
Lemma encode_scalar_joins cp w1 w2 :
  isScalarValue cp ->
  joinsPair w1 (UTF16EncodeCodePoint cp ++ w2) = false
  /\ joinsPair (UTF16EncodeCodePoint cp) w2 = false.
Proof.
  intros (Hr & Hl & Ht). unfold joinsPair.
  destruct (Z.le_gt_cases cp 0xFFFF) as [Hb|Hs].
  - rewrite encode_bmp by assumption. cbn. rewrite Hl, Ht.
    now rewrite andb_false_r.
  - destruct (encode_supplementary cp) as (l & t & -> & Hl' & Ht'); [lia|].
    cbn. rewrite (lead_not_trail l Hl'), andb_false_r. split; [reflexivity|].
    destruct (isLeadingSurrogate t) eqn:E; [|reflexivity].
    apply lead_not_trail in E. congruence.
Qed.

Lemma isVowel_In c : isVowel c = true <-> In c (lit "aeiouAEIOU").
Proof.
  unfold isVowel. rewrite existsb_exists. split.
  - intros (x & Hx & Heq). apply Z.eqb_eq in Heq. now subst.
  - intros H. exists c. split; [assumption|apply Z.eqb_refl].
Qed.

Section Scores.

Variable upperData : CaseMapping.

Lemma pointsForWord_app w1 w2 :
  joinsPair w1 w2 = false ->
  pointsForWord upperData (w1 ++ w2)
  = pointsForWord upperData w1 + pointsForWord upperData w2.
Proof.
  intros Hj. rewrite !pointsForWord_sum, stringIterator_app by assumption.
  now rewrite map_app, Zsum_app.
Qed.

Lemma pointsForWord_encode cp :
  0 <= cp <= 0x10FFFF ->
  pointsForWord upperData (UTF16EncodeCodePoint cp)
  = if isVowel cp then 1 else 2.
Proof.
  intros Hcp. rewrite pointsForWord_sum.
  destruct (Z.le_gt_cases cp 0xFFFF) as [Hb|Hs].
  - rewrite encode_bmp, stringIterator_one by assumption.
    cbn [map Zsum]. rewrite charPoints_unit. lia.
  - destruct (encode_supplementary cp) as (l & t & -> & Hl & Ht); [lia|].
    rewrite stringIterator_pair by assumption.
    cbn [map Zsum stringIterator]. rewrite charPoints_pair by assumption.
    destruct (isVowel cp) eqn:Hv; [|reflexivity].
    apply isVowel_ascii in Hv. lia.
Qed.

Lemma pointsForWord_insert cp w1 w2 :
  isScalarValue cp ->
  pointsForWord upperData (w1 ++ UTF16EncodeCodePoint cp ++ w2)
  = pointsForWord upperData w1
    + (if isVowel cp then 1 else 2)
    + pointsForWord upperData w2.
Proof.
  intros Hs. destruct (encode_scalar_joins cp w1 w2 Hs) as [H1 H2].
  rewrite pointsForWord_app by assumption.
  rewrite pointsForWord_app by assumption.
  rewrite pointsForWord_encode by (destruct Hs; assumption). lia.
Qed.

End Scores.

(** ** Properties of [pointsForWord] *)

(** C5: [pointsForWord("test")] is exactly 7, with t = 2, e = 1, s = 2
    and t = 2. *)
Theorem pointsForWord_test (U : CaseMapping) :
  pointsForWord U (lit "test") = 7
  /\ map (pointsForWord U) [lit "t"; lit "e"; lit "s"; lit "t"] = [2; 1; 2; 2].
Proof. rewrite !pointsForWord_sum. cbn [map]. rewrite !pointsForWord_sum. split; reflexivity. Qed.

(** C6: on the empty sequence of characters [pointsForWord] returns 0. *)
Theorem pointsForWord_empty (U : CaseMapping) :
  pointsForWord U [] = 0 /\ pointsForWord_call U (JSStr []) = Normal 0.
Proof. split; reflexivity. Qed.

(** C3, as amended: [pointsForWord(w1 + w2)] is
    [pointsForWord(w1) + pointsForWord(w2)] whenever the concatenation
    does not put a trailing surrogate right after a leading one, that
    is unless [w1] ends with a leading surrogate and [w2] starts with a
    trailing surrogate. *)
Theorem pointsForWord_additive (U : CaseMapping) (w1 w2 : JSString) :
  joinsPair w1 w2 = false ->
  pointsForWord U (w1 ++ w2) = pointsForWord U w1 + pointsForWord U w2.
Proof. apply pointsForWord_app. Qed.

Lemma pointsForWord_additive_witness :
  joinsPair (lit "te") (lit "st") = false
  /\ pointsForWord upperExcerpt (lit "te" ++ lit "st")
     = pointsForWord upperExcerpt (lit "te") + pointsForWord upperExcerpt (lit "st").
Proof.
  split; [reflexivity|].
  apply (pointsForWord_additive upperExcerpt (lit "te") (lit "st")).
  reflexivity.
Defined.

(** C3, as stated, fails: the two halves of a surrogate pair score 2
    each, their concatenation is one character and scores 2. *)
Lemma pointsForWord_additive_fails :
  pointsForWord upperExcerpt ([0xD83D] ++ [0xDE00])
  <> pointsForWord upperExcerpt [0xD83D] + pointsForWord upperExcerpt [0xDE00].
Proof. vm_compute. discriminate. Qed.

Lemma isVowel_letter c : isVowel c = true -> isAsciiLetter c = true.
Proof.
  rewrite isVowel_spec. unfold isAsciiLetter.
  rewrite orb_true_iff, !andb_true_iff, !Z.leb_le. lia.
Qed.

(** C7: a character that is not a letter of the ASCII alphabet, such as
    a digit, a punctuation mark or a white-space character, contributes
    2 points wherever it stands in a word, as every ASCII consonant
    does; and [pointsForWord("a1")] is 3. *)
Theorem pointsForWord_nonalphabetic (U : CaseMapping) (cp : Z) :
  isScalarValue cp ->
  isAsciiLetter cp = false ->
  pointsForWord U (UTF16EncodeCodePoint cp) = 2
  /\ (forall w1 w2,
         pointsForWord U (w1 ++ UTF16EncodeCodePoint cp ++ w2)
         = pointsForWord U w1 + 2 + pointsForWord U w2)
  /\ (forall c, isAsciiLetter c = true -> isVowel c = false ->
                pointsForWord U [c] = 2)
  /\ pointsForWord U (lit "a1") = 3.
Proof.
  intros Hs Hn.
  assert (Hv : isVowel cp = false).
  { destruct (isVowel cp) eqn:E; [|reflexivity].
    apply isVowel_letter in E. congruence. }
  split; [|split; [|split]].
  - rewrite pointsForWord_encode by (destruct Hs; assumption). now rewrite Hv.
  - intros w1 w2. rewrite pointsForWord_insert by assumption. now rewrite Hv.
  - intros c _ Hc. rewrite pointsForWord_sum, stringIterator_one.
    cbn [map Zsum]. rewrite charPoints_unit, Hc. lia.
  - rewrite pointsForWord_sum. reflexivity.
Qed.

Lemma pointsForWord_nonalphabetic_witness :
  isScalarValue 49 /\ isAsciiLetter 49 = false
  /\ pointsForWord upperExcerpt (lit "1") = 2
  /\ pointsForWord upperExcerpt (lit "a" ++ lit "1" ++ lit "!")
     = pointsForWord upperExcerpt (lit "a") + 2 + pointsForWord upperExcerpt (lit "!").
Proof.
  assert (Hs : isScalarValue 49) by (repeat split; cbn; lia || discriminate).
  assert (Hn : isAsciiLetter 49 = false) by reflexivity.
  destruct (pointsForWord_nonalphabetic upperExcerpt 49 Hs Hn) as (H1 & H2 & _).
  split; [exact Hs|]. split; [exact Hn|]. split.
  - exact H1.
  - exact (H2 (lit "a") (lit "!")).
Defined.

Lemma supplementary_scalar cp :
  0x10000 <= cp <= 0x10FFFF -> isScalarValue cp.
Proof.
  intros H. unfold isScalarValue, isLeadingSurrogate, isTrailingSurrogate.
  rewrite !andb_false_iff, !Z.leb_gt. lia.
Qed.

(** C9: a string is iterated by code point: a character outside the
    Basic Multilingual Plane takes two code units, is one iterated
    element and contributes exactly 2 points wherever it stands, so its
    score is less than twice its length in code units. *)
Theorem pointsForWord_by_code_point (U : CaseMapping) (cp : Z) :
  0x10000 <= cp <= 0x10FFFF ->
  let char := UTF16EncodeCodePoint cp in
  List.length char = 2%nat
  /\ stringIterator char = [char]
  /\ pointsForWord U char = 2
  /\ pointsForWord U char < 2 * Z.of_nat (List.length char)
  /\ (forall w1 w2,
         pointsForWord U (w1 ++ char ++ w2)
         = pointsForWord U w1 + 2 + pointsForWord U w2).
Proof.
  intros Hcp char.
  assert (Hv : isVowel cp = false).
  { destruct (isVowel cp) eqn:E; [|reflexivity].
    apply isVowel_ascii in E. lia. }
  assert (Hlen : List.length char = 2%nat).
  { subst char. destruct (encode_supplementary cp Hcp) as (l & t & -> & _).
    reflexivity. }
  assert (Hp : pointsForWord U char = 2).
  { subst char. rewrite pointsForWord_encode by lia. now rewrite Hv. }
  split; [exact Hlen|]. split; [apply stringIterator_encode; lia|].
  split; [exact Hp|]. split; [rewrite Hp, Hlen; lia|].
  intros w1 w2. subst char.
  rewrite pointsForWord_insert by (now apply supplementary_scalar).
  now rewrite Hv.
Qed.

Lemma pointsForWord_by_code_point_witness :
  0x10000 <= 0x1F600 <= 0x10FFFF
  /\ UTF16EncodeCodePoint 0x1F600 = [0xD83D; 0xDE00]
  /\ pointsForWord upperExcerpt [0xD83D; 0xDE00] = 2.
Proof.
  assert (H : 0x10000 <= 0x1F600 <= 0x10FFFF) by lia.
  split; [exact H|]. split; [reflexivity|].
  exact (proj1 (proj2 (proj2 (pointsForWord_by_code_point upperExcerpt 0x1F600 H)))).
Defined.

(** C10: among the Unicode characters exactly the ten ASCII characters
    a, e, i, o, u, A, E, I, O, U score 1 point; every other one scores 2
    points, accented vowels such as e acute (U+00E9) and A grave (U+00C0)
    included. *)
Theorem pointsForWord_ten_vowels (U : CaseMapping) (cp : Z) :
  0 <= cp <= 0x10FFFF ->
  (In cp (lit "aeiouAEIOU") -> pointsForWord U (UTF16EncodeCodePoint cp) = 1)
  /\ (~ In cp (lit "aeiouAEIOU") -> pointsForWord U (UTF16EncodeCodePoint cp) = 2)
  /\ pointsForWord U [0xE9] = 2
  /\ pointsForWord U [0xC0] = 2.
Proof.
  intros Hcp. rewrite pointsForWord_encode by assumption.
  rewrite <- isVowel_In.
  split; [|split; [|split]].
  - now intros ->.
  - now destruct (isVowel cp).
  - now rewrite pointsForWord_sum.
  - now rewrite pointsForWord_sum.
Qed.

Lemma pointsForWord_ten_vowels_witness :
  0 <= 0x49 <= 0x10FFFF /\ pointsForWord upperExcerpt (lit "I") = 1
  /\ pointsForWord upperExcerpt [0x131] = 2.
Proof.
  assert (H : 0 <= 0x49 <= 0x10FFFF) by lia.
  split; [exact H|]. split.
  - apply (proj1 (pointsForWord_ten_vowels upperExcerpt 0x49 H)).
    cbn. tauto.
  - assert (H' : 0 <= 0x131 <= 0x10FFFF) by lia.
    apply (proj1 (proj2 (pointsForWord_ten_vowels upperExcerpt 0x131 H'))).
    cbn. lia.
Defined.

Lemma SpecVowel_unit c : SpecVowel [c] <-> isVowel c = true.
Proof.
  rewrite isVowel_spec. unfold SpecVowel. cbn. split.
  - intros (v & Hv & [[= ->]|[= ->]]);
      repeat (destruct Hv as [<-|Hv]; [cbn; lia|]); contradiction.
  - intros H.
    destruct (Z.lt_ge_cases c 97) as [Hup|Hlow].
    + exists (c + 32). split; [lia|]. right. f_equal.
      unfold asciiUpper.
      destruct (Z.leb_spec 97 (c + 32)), (Z.leb_spec (c + 32) 122); cbn; lia.
    + exists c. split; [lia|]. now left.
Qed.

Lemma Zsum_charPoints chars :
  Forall IsChar chars ->
  let n := Z.of_nat (List.length chars) in
  n <= Zsum (map charPoints chars) <= 2 * n
  /\ (Zsum (map charPoints chars) = 2 * n
      <-> forall char, In char chars -> charPoints char = 2).
Proof.
  induction 1 as [|char chars Hc _ IH]; cbn zeta in *.
  - cbn. split; [lia|]. split; [contradiction|reflexivity].
  - cbn [map Zsum List.length In]. rewrite Nat2Z.inj_succ.
    pose proof (charPoints_range char Hc) as Hr.
    destruct IH as [Hb Hiff]. split; [lia|]. split.
    + intros Hsum c' [<-|Hin]; [lia|]. apply Hiff; [lia|assumption].
    + intros Hall. rewrite (Hall char) by now left.
      enough (Zsum (map charPoints chars) = 2 * Z.of_nat (List.length chars)) by lia.
      apply Hiff. intros c' Hin. apply Hall. now right.
Qed.

Lemma pointsForWord_upper_bound (U : CaseMapping) (w : JSString) :
  0 <= pointsForWord U w <= 2 * Z.of_nat (List.length w).
Proof.
  rewrite pointsForWord_sum.
  destruct (Zsum_charPoints _ (stringIterator_IsChar w)) as [Hb _].
  pose proof (stringIterator_length w). lia.
Qed.

(** Values that are not strings make the iteration throw. *)
Example pointsForWord_call_undefined (U : CaseMapping) :
  pointsForWord_call U JSUndefined = Throw TypeError.
Proof. reflexivity. Qed.

(** ** Facts about the encoding and the vowels of the specification *)

Lemma encode_nonempty cp : UTF16EncodeCodePoint cp <> [].
Proof. unfold UTF16EncodeCodePoint. destruct (cp <=? 0xFFFF); discriminate. Qed.

Lemma codePointOf_pair l t :
  isLeadingSurrogate l = true -> isTrailingSurrogate t = true ->
  0x10000 <= codePointOf [l; t].
Proof.
  unfold isLeadingSurrogate, isTrailingSurrogate.
  rewrite !andb_true_iff, !Z.leb_le. cbn. unfold UTF16SurrogatePairToCodePoint.
  lia.
Qed.

Lemma In_specVowels s :
  In s specVowels <-> exists v, In v (lit "aeiou") /\ s = [v].
Proof.
  unfold specVowels. cbn. split.
  - intros H. repeat (destruct H as [<-|H]; [eexists; split; [|reflexivity]; tauto|]).
    contradiction.
  - intros (v & Hv & ->).
    repeat (destruct Hv as [<-|Hv]; [tauto|]). contradiction.
Qed.

Lemma asciiLower_vowel c :
  In (asciiLower c) (lit "aeiou") <-> isVowel c = true.
Proof.
  rewrite isVowel_spec. cbn. unfold asciiLower.
  destruct (Z.leb_spec 65 c), (Z.leb_spec c 90); cbn; lia.
Qed.

Lemma lowerExcerpt_no_vowel c v :
  128 <= c -> In v (lit "aeiou") -> lowerExcerpt [] c [] <> [v].
Proof.
  intros Hc Hv. cbn in Hv. unfold lowerExcerpt.
  repeat match goal with
         | |- context [c =? ?k] =>
             destruct (Z.eqb_spec c k); [intros [=]; lia|]
         end.
  intros [=]. lia.
Qed.

(** ** Case conversion and the vowels *)

Lemma isVowel_asciiUpper c : isVowel (asciiUpper c) = isVowel c.
Proof.
  apply eq_true_iff_eq. rewrite !isVowel_spec. unfold asciiUpper.
  destruct (Z.leb_spec 97 c), (Z.leb_spec c 122); cbn; lia.
Qed.

Lemma isVowel_asciiLower c : isVowel (asciiLower c) = isVowel c.
Proof.
  apply eq_true_iff_eq. rewrite !isVowel_spec. unfold asciiLower.
  destruct (Z.leb_spec 65 c), (Z.leb_spec c 90); cbn; lia.
Qed.

Lemma asciiUpper_ascii c : 0 <= c < 128 -> 0 <= asciiUpper c < 128.
Proof.
  unfold asciiUpper.
  destruct (Z.leb_spec 97 c), (Z.leb_spec c 122); cbn; lia.
Qed.

Lemma asciiLower_ascii c : 0 <= c < 128 -> 0 <= asciiLower c < 128.
Proof.
  unfold asciiLower.
  destruct (Z.leb_spec 65 c), (Z.leb_spec c 90); cbn; lia.
Qed.

(** C2, as stated, fails: the upper-cased form of sharp s (U+00DF) is
    "SS", which scores 4, while sharp s scores 2. *)
Lemma pointsForWord_case_invariant_fails :
  pointsForWord upperExcerpt [0xDF]
  <> pointsForWord upperExcerpt (toUpperCase upperExcerpt [0xDF]).
Proof. vm_compute. discriminate. Qed.

Example toUpperCase_sharp_s :
  toUpperCase upperExcerpt [0xDF] = lit "SS"
  /\ pointsForWord upperExcerpt [0xDF] = 2
  /\ pointsForWord upperExcerpt (lit "SS") = 4.
Proof. repeat split. Qed.

(** The same happens with a case conversion that keeps the length:
    dotless i (U+0131) scores 2 and its upper-cased form "I" scores 1;
    and with lower-casing: I with dot above (U+0130) scores 2, its
    lower-cased form, i followed by U+0307, scores 3. *)
Example pointsForWord_dotless_i :
  pointsForWord upperExcerpt [0x131] = 2
  /\ pointsForWord upperExcerpt (toUpperCase upperExcerpt [0x131]) = 1.
Proof. split; reflexivity. Qed.

Example pointsForWord_dotted_I :
  pointsForWord upperExcerpt [0x130] = 2
  /\ pointsForWord upperExcerpt (toLowerCase lowerExcerpt [0x130]) = 3.
Proof. split; reflexivity. Qed.

(** ** Further properties of [pointsForWord] *)

Lemma trail_not_lead c :
  isTrailingSurrogate c = true -> isLeadingSurrogate c = false.
Proof.
  unfold isLeadingSurrogate, isTrailingSurrogate.
  rewrite andb_true_iff, andb_false_iff, !Z.leb_le, !Z.leb_gt. lia.
Qed.

Lemma Zsum_closed_form w :
  Zsum (map charPoints (stringIterator w))
  = 2 * Z.of_nat (List.length (stringIterator w)) - count isVowel w.
Proof.
  functional induction (stringIterator w);
    cbn [map Zsum List.length count]; rewrite ?Nat2Z.inj_succ.
  - reflexivity.
  - rewrite charPoints_unit, (isVowel_not_lead _ e0). cbn. lia.
  - rewrite charPoints_pair, IHl by assumption.
    rewrite (isVowel_not_lead _ e0), (isVowel_not_trail _ e2). lia.
  - rewrite charPoints_unit, IHl, (isVowel_not_lead _ e0).
    cbn [List.length count]. lia.
  - rewrite charPoints_unit, IHl. destruct (isVowel first); lia.
Qed.

Lemma Zsum_units_le w :
  Z.of_nat (List.length w) <= Zsum (map charPoints (stringIterator w)).
Proof.
  functional induction (stringIterator w);
    cbn [map Zsum List.length]; rewrite ?Nat2Z.inj_succ.
  - lia.
  - rewrite charPoints_unit. destruct (isVowel first); cbn; lia.
  - rewrite charPoints_pair by assumption. lia.
  - rewrite charPoints_unit. cbn [List.length] in IHl.
    rewrite Nat2Z.inj_succ in IHl. destruct (isVowel first); lia.
  - rewrite charPoints_unit. destruct (isVowel first); lia.
Qed.

(** X2: the score is twice the number of characters minus the number
    of code units that are one of the ten ASCII vowels. *)
Theorem pointsForWord_closed_form (U : CaseMapping) (w : JSString) :
  pointsForWord U w
  = 2 * Z.of_nat (List.length (stringIterator w)) - count isVowel w.
Proof. rewrite pointsForWord_sum. apply Zsum_closed_form. Qed.

(** X3: the score lies between the number of code units of the string
    and twice that number, and it is 0 only for the empty string. *)
Theorem pointsForWord_unit_bounds (U : CaseMapping) (w : JSString) :
  Z.of_nat (List.length w) <= pointsForWord U w <= 2 * Z.of_nat (List.length w)
  /\ (pointsForWord U w = 0 <-> w = []).
Proof.
  pose proof (pointsForWord_upper_bound U w) as Hu.
  pose proof (Zsum_units_le w) as Hl. rewrite <- (pointsForWord_sum U) in Hl.
  split; [lia|]. split.
  - intros H0. destruct w as [|c w]; [reflexivity|].
    cbn [List.length] in Hl. lia.
  - now intros ->.
Qed.

Lemma pointsForWord_lone (U : CaseMapping) c :
  isVowel c = false -> pointsForWord U [c] = 2.
Proof.
  intros Hv. rewrite pointsForWord_sum, stringIterator_one.
  cbn [map Zsum]. rewrite charPoints_unit, Hv. lia.
Qed.

Lemma joinsPair_split w1 w2 :
  joinsPair w1 w2 = true ->
  exists w1' lead trail w2',
    w1 = w1' ++ [lead] /\ w2 = trail :: w2'
    /\ isLeadingSurrogate lead = true /\ isTrailingSurrogate trail = true.
Proof.
  unfold joinsPair. rewrite andb_true_iff. intros [Hl Ht].
  destruct w2 as [|t w2']; [discriminate|].
  destruct w1 as [|c w1] using rev_ind; [discriminate|].
  rewrite last_last in Hl. now exists w1, c, t, w2'.
Qed.

(** X5: the score of a concatenation is the sum of the two scores, less
    2 when the concatenation joins a leading surrogate that ends the
    first string with a trailing surrogate that starts the second. *)
Theorem pointsForWord_concat (U : CaseMapping) (w1 w2 : JSString) :
  pointsForWord U (w1 ++ w2)
  = pointsForWord U w1 + pointsForWord U w2
    - (if joinsPair w1 w2 then 2 else 0).
Proof.
  destruct (joinsPair w1 w2) eqn:Hj.
  2:{ rewrite pointsForWord_app by assumption. lia. }
  destruct (joinsPair_split _ _ Hj) as (a & l & t & b & -> & -> & Hl & Ht).
  pose proof (lead_not_trail l Hl) as Hl'.
  pose proof (trail_not_lead t Ht) as Ht'.
  assert (Hleft : pointsForWord U (a ++ [l]) = pointsForWord U a + 2).
  { rewrite pointsForWord_app.
    - now rewrite (pointsForWord_lone U l (isVowel_not_lead l Hl)).
    - unfold joinsPair; cbn. now rewrite Hl', andb_false_r. }
  assert (Hright : pointsForWord U (t :: b) = 2 + pointsForWord U b).
  { change (t :: b) with ([t] ++ b). rewrite pointsForWord_app.
    - now rewrite (pointsForWord_lone U t (isVowel_not_trail t Ht)).
    - unfold joinsPair; cbn. now rewrite Ht'. }
  assert (Hboth : pointsForWord U ((a ++ [l]) ++ t :: b)
                  = pointsForWord U a + 2 + pointsForWord U b).
  { rewrite <- app_assoc. change ([l] ++ t :: b) with ([l; t] ++ b).
    rewrite pointsForWord_app.
    - rewrite pointsForWord_app.
      + rewrite (pointsForWord_sum U [l; t]), stringIterator_pair by assumption.
        cbn [stringIterator map Zsum]. rewrite charPoints_pair by assumption. lia.
      + unfold joinsPair; cbn. now rewrite Ht'.
    - unfold joinsPair; cbn. now rewrite Hl', andb_false_r. }
  lia.
Qed.

Lemma caseless_lead a b :
  asciiLower a = asciiLower b -> isLeadingSurrogate a = isLeadingSurrogate b.
Proof.
  unfold asciiLower, isLeadingSurrogate. intros H.
  apply eq_true_iff_eq. rewrite !andb_true_iff, !Z.leb_le.
  destruct (Z.leb_spec 65 a), (Z.leb_spec a 90),
           (Z.leb_spec 65 b), (Z.leb_spec b 90); cbn in H; lia.
Qed.

Lemma caseless_trail a b :
  asciiLower a = asciiLower b -> isTrailingSurrogate a = isTrailingSurrogate b.
Proof.
  unfold asciiLower, isTrailingSurrogate. intros H.
  apply eq_true_iff_eq. rewrite !andb_true_iff, !Z.leb_le.
  destruct (Z.leb_spec 65 a), (Z.leb_spec a 90),
           (Z.leb_spec 65 b), (Z.leb_spec b 90); cbn in H; lia.
Qed.

Lemma caseless_vowel a b :
  asciiLower a = asciiLower b -> isVowel a = isVowel b.
Proof.
  intros H. rewrite <- (isVowel_asciiLower a), <- (isVowel_asciiLower b).
  now rewrite H.
Qed.

Lemma caseless_chars w1 w2 :
  caselessEq w1 w2 ->
  List.length (stringIterator w1) = List.length (stringIterator w2).
Proof.
  unfold caselessEq. revert w2.
  functional induction (stringIterator w1); intros w2 H.
  - inversion H. reflexivity.
  - inversion H as [|? b ? r Hab Hr]; subst. inversion Hr; subst.
    now rewrite stringIterator_one.
  - inversion H as [|? b1 ? r Hab Hr]; subst.
    inversion Hr as [|? b2 ? r2 Hab2 Hr2]; subst.
    rewrite stringIterator_pair.
    + cbn [List.length]. f_equal. now apply IHl.
    + now rewrite <- (caseless_lead _ _ Hab).
    + now rewrite <- (caseless_trail _ _ Hab2).
  - inversion H as [|? b1 ? r Hab Hr]; subst.
    inversion Hr as [|? b2 ? r2 Hab2 Hr2]; subst.
    rewrite (stringIterator_equation (b1 :: b2 :: r2)).
    rewrite <- (caseless_lead _ _ Hab), e0.
    rewrite <- (caseless_trail _ _ Hab2), e2.
    cbn [List.length]. f_equal. now apply IHl.
  - inversion H as [|? b1 ? r Hab Hr]; subst.
    rewrite (stringIterator_equation (b1 :: r)).
    rewrite <- (caseless_lead _ _ Hab), e0.
    cbn [List.length]. f_equal. now apply IHl.
Qed.

Lemma caseless_count w1 w2 :
  caselessEq w1 w2 -> count isVowel w1 = count isVowel w2.
Proof.
  induction 1 as [|a b w1 w2 Hab _ IH]; cbn [count]; [reflexivity|].
  now rewrite (caseless_vowel _ _ Hab), IH.
Qed.

(** X6: two strings that differ only in the case of their ASCII letters
    have the same score, whatever other characters they contain. *)
Theorem pointsForWord_caseless (U : CaseMapping) (w1 w2 : JSString) :
  caselessEq w1 w2 -> pointsForWord U w1 = pointsForWord U w2.
Proof.
  intros H. rewrite !pointsForWord_sum, !Zsum_closed_form.
  now rewrite (caseless_chars _ _ H), (caseless_count _ _ H).
Qed.

Lemma pointsForWord_caseless_witness :
  caselessEq (lit "tEsT" ++ [0xD83D; 0xDE00]) (lit "TeSt" ++ [0xD83D; 0xDE00])
  /\ pointsForWord upperExcerpt (lit "tEsT" ++ [0xD83D; 0xDE00])
     = pointsForWord upperExcerpt (lit "TeSt" ++ [0xD83D; 0xDE00]).
Proof.
  assert (H : caselessEq (lit "tEsT" ++ [0xD83D; 0xDE00])
                         (lit "TeSt" ++ [0xD83D; 0xDE00])).
  { repeat constructor. }
  split; [exact H|]. exact (pointsForWord_caseless upperExcerpt _ _ H).
Defined.

Lemma Zsum_Permutation l1 l2 : Permutation l1 l2 -> Zsum l1 = Zsum l2.
Proof. induction 1; cbn; lia. Qed.

(** X7: in a string without leading surrogates the order of the
    characters does not matter: a rearrangement of the string has the
    same score. *)
Theorem pointsForWord_rearranged (U : CaseMapping) (w1 w2 : JSString) :
  Forall (fun c => isLeadingSurrogate c = false) w1 ->
  Permutation w1 w2 ->
  pointsForWord U w1 = pointsForWord U w2.
Proof.
  intros Hw1 Hp.
  assert (Hw2 : Forall (fun c => isLeadingSurrogate c = false) w2)
    by exact (Permutation_Forall Hp Hw1).
  rewrite !pointsForWord_sum, !stringIterator_units by assumption.
  rewrite !map_map. apply Zsum_Permutation. now apply Permutation_map.
Qed.

Lemma pointsForWord_rearranged_witness :
  Forall (fun c => isLeadingSurrogate c = false) (lit "tea")
  /\ Permutation (lit "tea") (lit "eat")
  /\ pointsForWord upperExcerpt (lit "tea") = pointsForWord upperExcerpt (lit "eat").
Proof.
  assert (Hw : Forall (fun c => isLeadingSurrogate c = false) (lit "tea")).
  { repeat constructor. }
  assert (Hp : Permutation (lit "tea") (lit "eat")).
  { apply (Permutation_cons_app [101; 97] []). apply Permutation_refl. }
  split; [exact Hw|]. split; [exact Hp|].
  exact (pointsForWord_rearranged upperExcerpt _ _ Hw Hp).
Defined.

Lemma codePointOf_encode cp :
  0 <= cp <= 0x10FFFF -> codePointOf (UTF16EncodeCodePoint cp) = cp.
Proof.
  intros Hcp. unfold UTF16EncodeCodePoint.
  destruct (Z.leb_spec cp 0xFFFF); [reflexivity|].
  cbn [codePointOf]. unfold UTF16SurrogatePairToCodePoint.
  pose proof (Z.div_mod (cp - 0x10000) 0x400). lia.
Qed.

Lemma stringIterator_encoded cps :
  Forall isScalarValue cps ->
  stringIterator (CodePointsToString cps) = map UTF16EncodeCodePoint cps.
Proof.
  induction 1 as [|cp cps Hcp _ IH]; [reflexivity|].
  cbn [CodePointsToString flat_map map].
  rewrite stringIterator_app
    by exact (proj2 (encode_scalar_joins cp [] (flat_map UTF16EncodeCodePoint cps) Hcp)).
  rewrite stringIterator_encode by (destruct Hcp; assumption).
  cbn [app]. f_equal. exact IH.
Qed.

Lemma charPoints_encode cp :
  0 <= cp <= 0x10FFFF ->
  charPoints (UTF16EncodeCodePoint cp) = if isVowel cp then 1 else 2.
Proof.
  intros Hcp. destruct (Z.le_gt_cases cp 0xFFFF) as [Hb|Hs].
  - rewrite encode_bmp by assumption. apply charPoints_unit.
  - destruct (encode_supplementary cp) as (l & t & -> & Hl & Ht); [lia|].
    rewrite charPoints_pair by assumption.
    destruct (isVowel cp) eqn:Hv; [|reflexivity].
    apply isVowel_ascii in Hv. lia.
Qed.

(** X8: a string that encodes a list of Unicode scalar values is
    iterated as exactly those characters, and its score is the sum over
    the list of 1 for each of the ten ASCII vowels and 2 for any other
    scalar value. *)
Theorem pointsForWord_encoded (U : CaseMapping) (cps : list Z) :
  Forall isScalarValue cps ->
  StringToCodePoints (CodePointsToString cps) = cps
  /\ pointsForWord U (CodePointsToString cps)
     = Zsum (map (fun cp => if isVowel cp then 1 else 2) cps).
Proof.
  intros H. split.
  - unfold StringToCodePoints. rewrite stringIterator_encoded by assumption.
    rewrite map_map. rewrite <- (map_id cps) at 2.
    apply map_ext_in. intros cp Hin. apply codePointOf_encode.
    rewrite Forall_forall in H. now destruct (H cp Hin).
  - rewrite pointsForWord_sum, stringIterator_encoded by assumption.
    rewrite map_map. f_equal. apply map_ext_in. intros cp Hin.
    apply charPoints_encode.
    rewrite Forall_forall in H. now destruct (H cp Hin).
Qed.

Lemma pointsForWord_encoded_witness :
  Forall isScalarValue [0x68; 0x69; 0x1F600]
  /\ CodePointsToString [0x68; 0x69; 0x1F600] = [0x68; 0x69; 0xD83D; 0xDE00]
  /\ pointsForWord upperExcerpt [0x68; 0x69; 0xD83D; 0xDE00] = 5.
Proof.
  assert (H : Forall isScalarValue [0x68; 0x69; 0x1F600]).
  { repeat constructor; cbn; lia. }
  split; [exact H|]. split; [reflexivity|].
  exact (proj2 (pointsForWord_encoded upperExcerpt _ H)).
Defined.

Lemma Zsum_firstn_mono chars k :
  Forall IsChar chars ->
  Zsum (map charPoints (firstn k chars))
  <= Zsum (map charPoints (firstn (S k) chars)).
Proof.
  intros H. revert k. induction H as [|char chars Hc _ IH]; intros k.
  - destruct k; cbn; lia.
  - pose proof (charPoints_range char Hc). destruct k as [|k].
    + cbn. lia.
    + specialize (IH k). cbn [firstn map Zsum] in *. lia.
Qed.

(** X9: the running total of the loop: after [k] turns it lies between
    the number of characters read and twice that number, it does not
    decrease at the next turn, and the rest of the loop takes it to the
    result. *)
Theorem pointsForWord_running_total (U : CaseMapping) (k : nat) (w : JSString) :
  let read := Z.of_nat (List.length (firstn k (stringIterator w))) in
  read <= pointsAfter U k w <= 2 * read
  /\ pointsAfter U k w <= pointsAfter U (S k) w
  /\ fold_left (addPoints U) (skipn k (stringIterator w)) (pointsAfter U k w)
     = pointsForWord U w.
Proof.
  intros read. subst read. unfold pointsAfter.
  pose proof (stringIterator_IsChar w) as Hchars.
  rewrite !fold_addPoints. split; [|split].
  - assert (Hf : Forall IsChar (firstn k (stringIterator w))).
    { rewrite <- (firstn_skipn k (stringIterator w)) in Hchars.
      now apply Forall_app in Hchars. }
    destruct (Zsum_charPoints _ Hf) as [Hb _]. cbn zeta in Hb. lia.
  - pose proof (Zsum_firstn_mono _ k Hchars). lia.
  - rewrite pointsForWord_sum.
    rewrite <- (firstn_skipn k (stringIterator w)) at 3.
    rewrite map_app, Zsum_app. lia.
Qed.

(** ** The earlier versions and the final one *)

Lemma isLowerVowel_spec c :
  isLowerVowel c = true <->
  c = 97 \/ c = 101 \/ c = 105 \/ c = 111 \/ c = 117.
Proof.
  unfold isLowerVowel; cbn [lit list_ascii_of_string map existsb].
  rewrite !orb_true_iff, !Z.eqb_eq. cbn. lia.
Qed.

Lemma isUpperVowel_spec c :
  isUpperVowel c = true <->
  c = 65 \/ c = 69 \/ c = 73 \/ c = 79 \/ c = 85.
Proof.
  unfold isUpperVowel; cbn [lit list_ascii_of_string map existsb].
  rewrite !orb_true_iff, !Z.eqb_eq. cbn. lia.
Qed.

Lemma isLowerVowel_not_surrogate c :
  isLeadingSurrogate c = true \/ isTrailingSurrogate c = true ->
  isLowerVowel c = false.
Proof.
  unfold isLeadingSurrogate, isTrailingSurrogate.
  rewrite !andb_true_iff, !Z.leb_le. intros H.
  apply not_true_iff_false. rewrite isLowerVowel_spec. lia.
Qed.

Lemma isUpperVowel_not_surrogate c :
  isLeadingSurrogate c = true \/ isTrailingSurrogate c = true ->
  isUpperVowel c = false.
Proof.
  unfold isLeadingSurrogate, isTrailingSurrogate.
  rewrite !andb_true_iff, !Z.leb_le. intros H.
  apply not_true_iff_false. rewrite isUpperVowel_spec. lia.
Qed.

(** The points of one element when only a, e, i, o, u count. *)
Lemma vowel_split c :
  (if isLowerVowel c then 1 else 2)
  = (if isVowel c then 1 else 2) + (if isUpperVowel c then 1 else 0).
Proof.
  assert (Hv : isVowel c = isLowerVowel c || isUpperVowel c).
  { apply eq_true_iff_eq.
    rewrite orb_true_iff, isVowel_spec, isLowerVowel_spec, isUpperVowel_spec.
    lia. }
  assert (Hx : isLowerVowel c && isUpperVowel c = false).
  { apply not_true_iff_false.
    rewrite andb_true_iff, isLowerVowel_spec, isUpperVowel_spec. lia. }
  rewrite Hv.
  destruct (isLowerVowel c), (isUpperVowel c); cbn in *; congruence || lia.
Qed.

Lemma fold_left_Zsum (g : Z -> JSString -> Z) (f : JSString -> Z) chars acc :
  (forall p char, In char chars -> g p char = p + f char) ->
  fold_left g chars acc = acc + Zsum (map f chars).
Proof.
  revert acc. induction chars as [|char chars IH]; intros acc Hg; cbn.
  - lia.
  - rewrite IH by (intros; apply Hg; now right).
    rewrite Hg by now left. lia.
Qed.

Lemma includes_In arr x : includes arr x = true <-> In x arr.
Proof.
  unfold includes. rewrite existsb_exists. split.
  - intros (y & Hy & Heq). destruct (list_eq_dec Z.eq_dec y x); [|discriminate].
    now subst.
  - intros H. exists x. split; [assumption|].
    destruct (list_eq_dec Z.eq_dec x x); congruence.
Qed.

Lemma includes_char char :
  IsChar char -> includes vowelArray char = existsb isLowerVowel char.
Proof.
  intros Hc. apply eq_true_iff_eq. rewrite includes_In.
  change vowelArray with specVowels. rewrite In_specVowels.
  destruct Hc as [c|l t Hl Ht]; cbn [existsb].
  - rewrite orb_false_r. unfold isLowerVowel. rewrite existsb_exists. split.
    + intros (v & Hv & [= ->]). exists v. split; [assumption|apply Z.eqb_refl].
    + intros (v & Hv & Heq). apply Z.eqb_eq in Heq. subst. now exists v.
  - rewrite (isLowerVowel_not_surrogate l), (isLowerVowel_not_surrogate t) by auto.
    cbn. split; [intros (v & _ & [=])|discriminate].
Qed.

Lemma classAccepts_lower U c :
  classAccepts U lowerVowelRegExp c = isLowerVowel c.
Proof.
  unfold classAccepts, isLowerVowel.
  cbn [lowerVowelRegExp classChars ignoreCase]. unfold Canonicalize; cbn [negb].
  generalize (lit "aeiou"). intros l.
  induction l as [|a l IH]; cbn [existsb]; [reflexivity|].
  now rewrite Z.eqb_sym, IH.
Qed.

Lemma test_lowerVowelRegExp U char :
  test U lowerVowelRegExp char = (existsb isLowerVowel char, lowerVowelRegExp).
Proof.
  rewrite test_stateless by reflexivity. f_equal.
  induction char as [|c char IH]; cbn [existsb]; [reflexivity|].
  now rewrite classAccepts_lower, IH.
Qed.

Lemma pointsForWord_includes_sum w :
  pointsForWord_includes w
  = Zsum (map (fun char => if existsb isLowerVowel char then 1 else 2)
              (stringIterator w)).
Proof.
  unfold pointsForWord_includes. rewrite fold_left_Zsum with
    (f := fun char => if existsb isLowerVowel char then 1 else 2);
    [reflexivity|].
  intros p char Hin. unfold addPoints_includes.
  pose proof (stringIterator_IsChar w) as H. rewrite Forall_forall in H.
  rewrite includes_char by auto.
  destruct (existsb isLowerVowel char); reflexivity.
Qed.

Lemma pointsForWord_caseSensitive_sum U w :
  pointsForWord_caseSensitive U w
  = Zsum (map (fun char => if existsb isLowerVowel char then 1 else 2)
              (stringIterator w)).
Proof.
  unfold pointsForWord_caseSensitive. rewrite fold_left_Zsum with
    (f := fun char => if existsb isLowerVowel char then 1 else 2);
    [reflexivity|].
  intros p char _. unfold addPoints_caseSensitive.
  now rewrite test_lowerVowelRegExp.
Qed.

Lemma lower_sum_difference w :
  Zsum (map (fun char => if existsb isLowerVowel char then 1 else 2)
            (stringIterator w))
  = Zsum (map charPoints (stringIterator w)) + count isUpperVowel w.
Proof.
  functional induction (stringIterator w); cbn [map Zsum count existsb].
  - reflexivity.
  - rewrite charPoints_unit, orb_false_r. pose proof (vowel_split first). lia.
  - rewrite charPoints_pair, IHl by assumption.
    rewrite (isLowerVowel_not_surrogate first), (isLowerVowel_not_surrogate second),
      (isUpperVowel_not_surrogate first), (isUpperVowel_not_surrogate second) by auto.
    cbn [orb]. lia.
  - rewrite charPoints_unit, orb_false_r, IHl. cbn [count].
    pose proof (vowel_split first). lia.
  - rewrite charPoints_unit, orb_false_r, IHl.
    pose proof (vowel_split first). lia.
Qed.

Lemma count_zero p w :
  count p w = 0 <-> Forall (fun c => p c = false) w.
Proof.
  assert (Hpos : forall l, 0 <= count p l).
  { induction l as [|c l IH]; cbn; [lia|]. destruct (p c); lia. }
  induction w as [|c w IH]; cbn [count].
  - split; [constructor|reflexivity].
  - pose proof (Hpos w). split.
    + intros H0. destruct (p c) eqn:Hp; [lia|].
      constructor; [assumption|]. apply IH. lia.
    + intros H0. inversion H0 as [|? ? Hc Hw]; subst.
      rewrite Hc. apply IH in Hw. lia.
Qed.

(** X10: the refactoring of the lesson keeps the score: the version
    that looks the character up in the array of vowels with [includes]
    and the version that tests it with [/[aeiou]/] return the same
    number on every string. *)
Theorem pointsForWord_refactor (U : CaseMapping) (w : JSString) :
  pointsForWord_includes w = pointsForWord_caseSensitive U w.
Proof.
  now rewrite pointsForWord_includes_sum, pointsForWord_caseSensitive_sum.
Qed.

(** X11: the [i] flag lowers the score by one point for each upper-case
    vowel A, E, I, O, U of the string, and by nothing else; so the
    version without the flag agrees with [src/utils.js] exactly on the
    strings that have none of these five. *)
Theorem pointsForWord_ignoreCase_flag (U : CaseMapping) (w : JSString) :
  pointsForWord_caseSensitive U w = pointsForWord U w + count isUpperVowel w
  /\ (pointsForWord_caseSensitive U w = pointsForWord U w
      <-> Forall (fun c => isUpperVowel c = false) w).
Proof.
  assert (H : pointsForWord_caseSensitive U w
              = pointsForWord U w + count isUpperVowel w).
  { rewrite pointsForWord_caseSensitive_sum, pointsForWord_sum.
    apply lower_sum_difference. }
  split; [exact H|]. rewrite <- count_zero. lia.
Qed.

(** X12: both tests of the suite pass against [src/utils.js], whatever
    the case tables of the runtime; against the two earlier versions
    the first test passes and the second, on "tEsT", fails. *)
Theorem utils_test_verdicts (U : CaseMapping) :
  map snd (utils_test (pointsForWord U)) = [true; true]
  /\ map snd (utils_test (pointsForWord_caseSensitive U)) = [true; false]
  /\ map snd (utils_test pointsForWord_includes) = [true; false].
Proof.
  unfold utils_test, it; cbn [map snd].
  rewrite !pointsForWord_sum, !pointsForWord_caseSensitive_sum,
    !pointsForWord_includes_sum.
  split; [reflexivity|]. split; reflexivity.
Qed.

(** ** Words as sequences of characters *)

Lemma encode_ends cp :
  isCodePoint cp ->
  (isTrailingSurrogate (hd 0 (UTF16EncodeCodePoint cp)) = true ->
   isTrailingSurrogate cp = true)
  /\ (isLeadingSurrogate (last (UTF16EncodeCodePoint cp) 0) = true ->
      isLeadingSurrogate cp = true).
Proof.
  intros Hcp. destruct (Z.le_gt_cases cp 0xFFFF) as [Hb|Hs].
  - rewrite encode_bmp by assumption. cbn. auto.
  - destruct (encode_supplementary cp) as (l & t & -> & Hl & Ht);
      [unfold isCodePoint in Hcp; lia|].
    cbn. rewrite (lead_not_trail l Hl), (trail_not_lead t Ht).
    split; discriminate.
Qed.

Lemma hd_encoded cp rest :
  hd 0 (CodePointsToString (cp :: rest)) = hd 0 (UTF16EncodeCodePoint cp).
Proof.
  cbn [CodePointsToString flat_map].
  pose proof (encode_nonempty cp).
  now destruct (UTF16EncodeCodePoint cp).
Qed.

Lemma joinsPair_encoded cp rest :
  isCodePoint cp -> Forall isCodePoint rest ->
  isLeadingSurrogate cp && isTrailingSurrogate (hd 0 rest) = false ->
  joinsPair (UTF16EncodeCodePoint cp) (CodePointsToString rest) = false.
Proof.
  intros Hcp Hrest Hsep. unfold joinsPair.
  destruct (isLeadingSurrogate (last _ 0)) eqn:Hl; [|reflexivity].
  apply (proj2 (encode_ends cp Hcp)) in Hl. rewrite Hl in Hsep. cbn in *.
  destruct rest as [|b rest]; [reflexivity|].
  rewrite hd_encoded. cbn in Hsep.
  destruct (isTrailingSurrogate (hd 0 (UTF16EncodeCodePoint b))) eqn:Ht;
    [|reflexivity].
  inversion Hrest as [|? ? Hb _]; subst.
  apply (proj1 (encode_ends b Hb)) in Ht. congruence.
Qed.

Lemma stringIterator_chars cps :
  Characters cps ->
  stringIterator (CodePointsToString cps) = map UTF16EncodeCodePoint cps.
Proof.
  intros [Hcps Hsep]. induction Hcps as [|cp cps Hcp Hcps IH]; [reflexivity|].
  cbn [separated] in Hsep. apply andb_true_iff in Hsep. destruct Hsep as [H1 H2].
  apply negb_true_iff in H1.
  change (CodePointsToString (cp :: cps))
    with (UTF16EncodeCodePoint cp ++ CodePointsToString cps).
  rewrite stringIterator_app by now apply joinsPair_encoded.
  rewrite stringIterator_encode by exact Hcp.
  cbn [app map]. f_equal. now apply IH.
Qed.

Lemma pointsForWord_chars U cps :
  Characters cps ->
  pointsForWord U (CodePointsToString cps)
  = Zsum (map (fun cp => if isVowel cp then 1 else 2) cps).
Proof.
  intros H. rewrite pointsForWord_sum, stringIterator_chars by assumption.
  rewrite map_map. f_equal. apply map_ext_in. intros cp Hin.
  apply charPoints_encode. destruct H as [H _].
  rewrite Forall_forall in H. exact (H cp Hin).
Qed.

Lemma scalar_Characters cps : Forall isScalarValue cps -> Characters cps.
Proof.
  intros H. split.
  - eapply Forall_impl; [|exact H]. now intros cp [Hr _].
  - induction H as [|cp cps (_ & Hl & _) _ IH]; [reflexivity|].
    cbn [separated]. now rewrite Hl, IH.
Qed.

(** Every string is the encoding of its characters. *)

Lemma encode_pair_value l t :
  isLeadingSurrogate l = true -> isTrailingSurrogate t = true ->
  isCodePoint (UTF16SurrogatePairToCodePoint l t)
  /\ UTF16EncodeCodePoint (UTF16SurrogatePairToCodePoint l t) = [l; t].
Proof.
  unfold isLeadingSurrogate, isTrailingSurrogate, isCodePoint.
  rewrite !andb_true_iff, !Z.leb_le. intros Hl Ht.
  unfold UTF16EncodeCodePoint, UTF16SurrogatePairToCodePoint.
  split; [lia|].
  destruct (Z.leb_spec ((l - 55296) * 1024 + (t - 56320) + 65536) 65535); [lia|].
  replace ((l - 55296) * 1024 + (t - 56320) + 65536 - 65536)
    with ((t - 56320) + (l - 55296) * 1024) by lia.
  rewrite Z.div_add, Z.mod_add by lia.
  rewrite Z.div_small, Z.mod_small by lia.
  f_equal; [lia|]. f_equal. lia.
Qed.

Lemma hd_StringToCodePoints w :
  isTrailingSurrogate (hd 0 (StringToCodePoints w)) = true ->
  isTrailingSurrogate (hd 0 w) = true.
Proof.
  unfold StringToCodePoints. destruct w as [|c r]; [trivial|].
  rewrite stringIterator_equation.
  destruct (isLeadingSurrogate c) eqn:Hc; [|trivial].
  destruct r as [|d r]; [trivial|].
  destruct (isTrailingSurrogate d) eqn:Hd; [|trivial].
  cbn [map hd]. intros H.
  pose proof (codePointOf_pair c d Hc Hd) as Hp.
  unfold isTrailingSurrogate in H.
  rewrite andb_true_iff, !Z.leb_le in H. lia.
Qed.

Lemma StringToCodePoints_Characters w :
  Forall (fun c => 0 <= c <= 0xFFFF) w ->
  Characters (StringToCodePoints w)
  /\ CodePointsToString (StringToCodePoints w) = w.
Proof.
  unfold Characters, StringToCodePoints.
  functional induction (stringIterator w); intros Hw.
  - repeat split; constructor.
  - inversion Hw as [|? ? Hf _]; subst. cbn [map codePointOf].
    repeat split.
    + repeat constructor; unfold isCodePoint; lia.
    + cbn. now rewrite andb_false_r.
    + cbn. now rewrite encode_bmp by lia.
  - inversion Hw as [|? ? Hf Hw1]; subst. inversion Hw1 as [|? ? Hs Hw2]; subst.
    destruct (IHl Hw2) as ((IH1 & IH2) & IH3).
    destruct (encode_pair_value first second e0 e2) as [Hcp Henc].
    pose proof (codePointOf_pair first second e0 e2) as Hge.
    cbn [map]. change (codePointOf [first; second])
      with (UTF16SurrogatePairToCodePoint first second) in *.
    repeat split.
    + now constructor.
    + cbn [separated]. rewrite IH2.
      assert (Hnl : isLeadingSurrogate (UTF16SurrogatePairToCodePoint first second) = false).
      { unfold isLeadingSurrogate. rewrite andb_false_iff, !Z.leb_gt. lia. }
      now rewrite Hnl.
    + cbn [CodePointsToString flat_map]. rewrite Henc.
      cbn [app]. do 2 f_equal. exact IH3.
  - inversion Hw as [|? ? Hf Hw1]; subst.
    destruct (IHl Hw1) as ((IH1 & IH2) & IH3).
    cbn [map]. change (codePointOf [first]) with first.
    repeat split.
    + constructor; [unfold isCodePoint; lia|assumption].
    + cbn [separated]. rewrite IH2.
      destruct (isTrailingSurrogate (hd 0 _)) eqn:Ht.
      * apply (hd_StringToCodePoints (second :: rest')) in Ht.
        cbn in Ht. congruence.
      * now rewrite andb_false_r.
    + cbn [CodePointsToString flat_map]. rewrite encode_bmp by lia.
      cbn [app]. f_equal. exact IH3.
  - inversion Hw as [|? ? Hf Hw1]; subst.
    destruct (IHl Hw1) as ((IH1 & IH2) & IH3).
    cbn [map]. change (codePointOf [first]) with first.
    repeat split.
    + constructor; [unfold isCodePoint; lia|assumption].
    + cbn [separated]. now rewrite e0, IH2.
    + cbn [CodePointsToString flat_map]. rewrite encode_bmp by lia.
      cbn [app]. f_equal. exact IH3.
Qed.

Lemma Characters_cover w :
  Forall (fun c => 0 <= c <= 0xFFFF) w ->
  exists cps, Characters cps /\ CodePointsToString cps = w.
Proof.
  intros Hw. exists (StringToCodePoints w).
  now apply StringToCodePoints_Characters.
Qed.

Lemma specPointsOf_vowel L cp :
  (forall c, 128 <= c -> forall v, In v (lit "aeiou") -> L [] c [] <> [v]) ->
  specPointsOf L cp = if isVowel cp then 1 else 2.
Proof.
  intros HL. unfold specPointsOf, toLowercase. cbn [caseConvert].
  rewrite app_nil_r.
  destruct (Z.ltb_spec cp 128) as [Hlt|Hge].
  - destruct (in_dec _ _ _) as [Hin|Hnin].
    + apply in_map_iff in Hin. destruct Hin as (v & [= Heq] & Hv).
      rewrite Heq in Hv. apply asciiLower_vowel in Hv. now rewrite Hv.
    + destruct (isVowel cp) eqn:Hv; [|reflexivity].
      exfalso. apply Hnin, in_map_iff. exists (asciiLower cp).
      split; [reflexivity|now apply asciiLower_vowel].
  - destruct (in_dec _ _ _) as [Hin|_].
    + exfalso. apply in_map_iff in Hin. destruct Hin as (v & Heq & Hv).
      exact (HL cp Hge v Hv (eq_sym Heq)).
    + destruct (isVowel cp) eqn:Hv; [|reflexivity].
      apply isVowel_ascii in Hv. lia.
Qed.

(** C1: a word being a sequence of characters, the score of the string
    that spells it is the sum, over these characters, of 1 for a
    character whose lower-cased form is one of a, e, i, o, u and of 2
    for any other; and every string spells such a sequence.  The
    lower-case table is Unicode's, in which no character outside ASCII
    has one of the five letters as its lower-cased form. *)
Theorem pointsForWord_spec (U L : CaseMapping) :
  (forall c, 128 <= c -> forall v, In v (lit "aeiou") -> L [] c [] <> [v]) ->
  (forall cps, Characters cps ->
     pointsForWord U (CodePointsToString cps) = specScore L cps)
  /\ (forall w, Forall (fun c => 0 <= c <= 0xFFFF) w ->
        exists cps, Characters cps /\ CodePointsToString cps = w).
Proof.
  intros HL. split.
  - intros cps Hc. rewrite pointsForWord_chars by assumption.
    unfold specScore. f_equal. apply map_ext. intros cp.
    symmetry. now apply specPointsOf_vowel.
  - apply Characters_cover.
Qed.

Lemma pointsForWord_spec_witness :
  (forall c, 128 <= c -> forall v, In v (lit "aeiou") -> lowerExcerpt [] c [] <> [v])
  /\ Characters [0x74; 0x45; 0x73; 0x54; 0xC9; 0x1F600]
  /\ CodePointsToString [0x74; 0x45; 0x73; 0x54; 0xC9; 0x1F600]
     = lit "tEsT" ++ [0xC9; 0xD83D; 0xDE00]
  /\ pointsForWord upperExcerpt (lit "tEsT" ++ [0xC9; 0xD83D; 0xDE00])
     = specScore lowerExcerpt [0x74; 0x45; 0x73; 0x54; 0xC9; 0x1F600]
  /\ specScore lowerExcerpt [0x74; 0x45; 0x73; 0x54; 0xC9; 0x1F600] = 11.
Proof.
  assert (HL : forall c, 128 <= c -> forall v, In v (lit "aeiou") ->
                         lowerExcerpt [] c [] <> [v]).
  { intros c Hc v Hv. now apply lowerExcerpt_no_vowel. }
  assert (Hc : Characters [0x74; 0x45; 0x73; 0x54; 0xC9; 0x1F600]).
  { split; [|reflexivity]. repeat constructor; unfold isCodePoint; lia. }
  split; [exact HL|]. split; [exact Hc|]. split; [reflexivity|].
  split; [|reflexivity].
  exact (proj1 (pointsForWord_spec upperExcerpt lowerExcerpt HL) _ Hc).
Defined.

Lemma SpecVowel_encode cp :
  isCodePoint cp -> (SpecVowel (UTF16EncodeCodePoint cp) <-> isVowel cp = true).
Proof.
  intros Hcp. destruct (Z.le_gt_cases cp 0xFFFF) as [Hb|Hs].
  - rewrite encode_bmp by assumption. apply SpecVowel_unit.
  - destruct (encode_supplementary cp) as (l & t & -> & Hl & Ht);
      [unfold isCodePoint in Hcp; lia|].
    split.
    + intros (v & _ & [[=]|[=]]).
    + intros Hv. apply isVowel_ascii in Hv. lia.
Qed.

Lemma Zsum_points cps :
  let n := Z.of_nat (List.length cps) in
  let total := Zsum (map (fun cp => if isVowel cp then 1 else 2) cps) in
  n <= total <= 2 * n
  /\ (total = 2 * n <-> forall cp, In cp cps -> isVowel cp = false)
  /\ (total = n <-> forall cp, In cp cps -> isVowel cp = true).
Proof.
  induction cps as [|c cps IH]; cbn zeta in *.
  - cbn. repeat split; try lia; contradiction.
  - cbn [map Zsum List.length In]. rewrite Nat2Z.inj_succ.
    destruct IH as (Hb & H2 & H1). split; [destruct (isVowel c); lia|]. split.
    + split.
      * intros Hsum cp [<-|Hin].
        -- destruct (isVowel c); [lia|reflexivity].
        -- apply H2; [destruct (isVowel c); lia|assumption].
      * intros Hall. rewrite (Hall c) by now left.
        enough (Zsum (map (fun cp => if isVowel cp then 1 else 2) cps)
                = 2 * Z.of_nat (List.length cps)) by lia.
        apply H2. intros cp Hin. apply Hall. now right.
    + split.
      * intros Hsum cp [<-|Hin].
        -- destruct (isVowel c); [reflexivity|lia].
        -- apply H1; [destruct (isVowel c); lia|assumption].
      * intros Hall. rewrite (Hall c) by now left.
        enough (Zsum (map (fun cp => if isVowel cp then 1 else 2) cps)
                = Z.of_nat (List.length cps)) by lia.
        apply H1. intros cp Hin. apply Hall. now right.
Qed.

(** C4: a word being a sequence of characters and its length their
    number, the score of the string that spells it lies between 0 and
    twice the length, and it is twice the length exactly when no
    character of the word is a vowel; and every string spells such a
    sequence. *)
Theorem pointsForWord_bounds (U : CaseMapping) :
  (forall cps, Characters cps ->
     let len := Z.of_nat (List.length cps) in
     let score := pointsForWord U (CodePointsToString cps) in
     0 <= score <= 2 * len
     /\ (score = 2 * len
         <-> forall cp, In cp cps -> ~ SpecVowel (UTF16EncodeCodePoint cp)))
  /\ (forall w, Forall (fun c => 0 <= c <= 0xFFFF) w ->
        exists cps, Characters cps /\ CodePointsToString cps = w).
Proof.
  split; [|apply Characters_cover].
  intros cps Hc len score. subst len score.
  rewrite pointsForWord_chars by assumption.
  destruct (Zsum_points cps) as (Hb & H2 & _). cbn zeta in *.
  split; [lia|]. rewrite H2. destruct Hc as [Hcp _].
  rewrite Forall_forall in Hcp.
  split; intros H cp Hin.
  - rewrite (SpecVowel_encode cp (Hcp cp Hin)), (H cp Hin). discriminate.
  - apply not_true_is_false. rewrite <- (SpecVowel_encode cp (Hcp cp Hin)).
    now apply H.
Qed.

Lemma pointsForWord_bounds_witness :
  Characters [0x62; 0x1F600]
  /\ CodePointsToString [0x62; 0x1F600] = [0x62; 0xD83D; 0xDE00]
  /\ pointsForWord upperExcerpt [0x62; 0xD83D; 0xDE00] = 2 * 2.
Proof.
  assert (Hc : Characters [0x62; 0x1F600]).
  { split; [|reflexivity]. repeat constructor; unfold isCodePoint; lia. }
  split; [exact Hc|]. split; [reflexivity|].
  apply (proj1 (pointsForWord_bounds upperExcerpt) _ Hc).
  intros cp [<-|[<-|[]]] (v & Hv & [Heq|Heq]); cbn in Hv;
    repeat (destruct Hv as [<-|Hv]; [discriminate|]); contradiction.
Defined.

(** X4: every character scores at least 1, so the score of the string
    that spells a sequence of characters is at least their number; it
    is exactly that number when every character is a vowel, and only
    then. *)
Theorem pointsForWord_lower_bound (U : CaseMapping) (cps : list Z) :
  Characters cps ->
  let len := Z.of_nat (List.length cps) in
  let score := pointsForWord U (CodePointsToString cps) in
  len <= score
  /\ (score = len
      <-> forall cp, In cp cps -> SpecVowel (UTF16EncodeCodePoint cp)).
Proof.
  intros Hc len score. subst len score.
  rewrite pointsForWord_chars by assumption.
  destruct (Zsum_points cps) as (Hb & _ & H1). cbn zeta in *.
  split; [lia|]. rewrite H1. destruct Hc as [Hcp _].
  rewrite Forall_forall in Hcp.
  split; intros H cp Hin.
  - apply (SpecVowel_encode cp (Hcp cp Hin)). now apply H.
  - apply (SpecVowel_encode cp (Hcp cp Hin)). now apply H.
Qed.

Lemma pointsForWord_lower_bound_witness :
  Characters [0x61; 0x1F600]
  /\ 2 <= pointsForWord upperExcerpt [0x61; 0xD83D; 0xDE00].
Proof.
  assert (Hc : Characters [0x61; 0x1F600]).
  { split; [|reflexivity]. repeat constructor; unfold isCodePoint; lia. }
  split; [exact Hc|].
  exact (proj1 (pointsForWord_lower_bound upperExcerpt _ Hc)).
Defined.

(** ** Case conversion of words *)

Lemma StringToCodePoints_chars cps :
  Characters cps -> StringToCodePoints (CodePointsToString cps) = cps.
Proof.
  intros Hc. unfold StringToCodePoints.
  rewrite stringIterator_chars by assumption.
  rewrite map_map. rewrite <- (map_id cps) at 2.
  apply map_ext_in. intros cp Hin. apply codePointOf_encode.
  destruct Hc as [Hcp _]. rewrite Forall_forall in Hcp. exact (Hcp cp Hin).
Qed.

Lemma ascii_scalar c : 0 <= c < 128 -> isScalarValue c.
Proof.
  intros H. unfold isScalarValue, isLeadingSurrogate, isTrailingSurrogate.
  rewrite !andb_false_iff, !Z.leb_gt. lia.
Qed.

Lemma caseConvert_stable f D before cps :
  (forall c, 0 <= c < 128 -> 0 <= f c < 128) ->
  (forall c, isVowel (f c) = isVowel c) ->
  Forall isScalarValue cps ->
  caseStable D before cps = true ->
  Forall isScalarValue (caseConvert f D before cps)
  /\ Zsum (map (fun cp => if isVowel cp then 1 else 2) (caseConvert f D before cps))
     = Zsum (map (fun cp => if isVowel cp then 1 else 2) cps).
Proof.
  intros Hf Hv Hs. revert before.
  induction Hs as [|c cps Hc _ IH]; intros before Hst; [now split|].
  cbn [caseStable] in Hst. apply andb_true_iff in Hst. destruct Hst as [Hhere Hrest].
  destruct (IH _ Hrest) as [IH1 IH2].
  cbn [caseConvert]. destruct (Z.ltb_spec c 128) as [Hlt|Hge].
  - assert (Hc0 : 0 <= c < 128) by (destruct Hc; lia).
    cbn [app map Zsum]. split.
    + constructor; [apply ascii_scalar; auto|assumption].
    + now rewrite Hv, IH2.
  - cbn [orb] in Hhere.
    destruct (D before c cps) as [|d [|? ?]]; try discriminate.
    rewrite !andb_true_iff, !negb_true_iff, !Z.leb_le in Hhere.
    destruct Hhere as ((((H0 & H1) & Hl) & Ht) & Hvd).
    cbn [app map Zsum]. split.
    + constructor; [repeat split; assumption|assumption].
    + rewrite Hvd, IH2.
      destruct (isVowel c) eqn:Hvc; [|reflexivity].
      apply isVowel_ascii in Hvc. lia.
Qed.

Lemma caseStable_ascii D before w :
  Forall (fun c => 0 <= c < 128) w -> caseStable D before w = true.
Proof.
  intros H. revert before. induction H as [|c w Hc _ IH]; intros before;
    cbn [caseStable]; [reflexivity|].
  destruct (Z.ltb_spec c 128); [|lia]. now rewrite IH.
Qed.

Lemma pointsForWord_converted U f D cps :
  (forall c, 0 <= c < 128 -> 0 <= f c < 128) ->
  (forall c, isVowel (f c) = isVowel c) ->
  Forall isScalarValue cps ->
  caseStable D [] cps = true ->
  pointsForWord U (CodePointsToString
                     (caseConvert f D [] (StringToCodePoints (CodePointsToString cps))))
  = pointsForWord U (CodePointsToString cps).
Proof.
  intros Hf Hv Hs Hst.
  rewrite StringToCodePoints_chars by now apply scalar_Characters.
  destruct (caseConvert_stable f D [] cps Hf Hv Hs Hst) as [H1 H2].
  rewrite !pointsForWord_chars by now apply scalar_Characters.
  exact H2.
Qed.

(** C2, as amended: for every well-formed word in which each character
    outside ASCII has, under either case conversion, one character
    other than an ASCII vowel as its converted form, the score of the
    word, of its lower-cased form and of its upper-cased form are
    equal; [pointsForWord("tEsT")] is 7, and "E" and "e" both
    score 1. *)
Theorem pointsForWord_case_invariant (U L : CaseMapping) (cps : list Z) :
  Forall isScalarValue cps ->
  caseStable L [] cps = true ->
  caseStable U [] cps = true ->
  let w := CodePointsToString cps in
  pointsForWord U w = pointsForWord U (toLowerCase L w)
  /\ pointsForWord U (toLowerCase L w) = pointsForWord U (toUpperCase U w)
  /\ pointsForWord U (lit "tEsT") = 7
  /\ pointsForWord U (lit "E") = 1
  /\ pointsForWord U (lit "e") = 1.
Proof.
  intros Hs HL HU w. subst w. unfold toLowerCase, toUpperCase, toLowercase, toUppercase.
  rewrite !pointsForWord_converted
    by auto using isVowel_asciiLower, isVowel_asciiUpper,
                  asciiLower_ascii, asciiUpper_ascii.
  split; [reflexivity|]. split; [reflexivity|].
  rewrite !pointsForWord_sum. split; [reflexivity|]. split; reflexivity.
Qed.

Lemma pointsForWord_case_invariant_witness :
  Forall isScalarValue [0x63; 0x61; 0x66; 0xE9; 0x1F600]
  /\ caseStable lowerExcerpt [] [0x63; 0x61; 0x66; 0xE9; 0x1F600] = true
  /\ caseStable upperExcerpt [] [0x63; 0x61; 0x66; 0xE9; 0x1F600] = true
  /\ toUpperCase upperExcerpt (CodePointsToString [0x63; 0x61; 0x66; 0xE9; 0x1F600])
     = [0x43; 0x41; 0x46; 0xC9; 0xD83D; 0xDE00]
  /\ pointsForWord upperExcerpt (CodePointsToString [0x63; 0x61; 0x66; 0xE9; 0x1F600])
     = pointsForWord upperExcerpt [0x43; 0x41; 0x46; 0xC9; 0xD83D; 0xDE00].
Proof.
  assert (Hs : Forall isScalarValue [0x63; 0x61; 0x66; 0xE9; 0x1F600]).
  { repeat constructor; cbn; lia. }
  assert (HL : caseStable lowerExcerpt [] [0x63; 0x61; 0x66; 0xE9; 0x1F600] = true)
    by reflexivity.
  assert (HU : caseStable upperExcerpt [] [0x63; 0x61; 0x66; 0xE9; 0x1F600] = true)
    by reflexivity.
  split; [exact Hs|]. split; [exact HL|]. split; [exact HU|].
  split; [reflexivity|].
  destruct (pointsForWord_case_invariant upperExcerpt lowerExcerpt _ Hs HL HU)
    as (H1 & H2 & _).
  exact (eq_trans H1 H2).
Defined.

(** ** The call on an explicit store *)

Lemma nth_error_last (h : Heap) o : nth_error (h ++ [o]) (List.length h) = Some o.
Proof. induction h as [|x h IH]; cbn; [reflexivity|exact IH]. Qed.

Lemma store_last (h : Heap) o o' : store (h ++ [o]) (List.length h) o' = h ++ [o'].
Proof. induction h as [|x h IH]; cbn; [reflexivity|now rewrite IH]. Qed.

Lemma loopBody_run U points char h :
  loopBody U points char h
  = (Normal (addPoints U points char), h ++ [ORegExp vowelRegExp]).
Proof.
  unfold loopBody, bindS, RegExpLiteral, RegExp_prototype_test, ret, addPoints.
  rewrite nth_error_last, test_vowelRegExp, store_last. reflexivity.
Qed.

Lemma forOf_run U chars points h :
  forOf (loopBody U) chars points h
  = (Normal (fold_left (addPoints U) chars points),
     h ++ map (fun _ => ORegExp vowelRegExp) chars).
Proof.
  revert points h. induction chars as [|char chars IH]; intros points h.
  - cbn. now rewrite app_nil_r.
  - cbn [forOf fold_left map]. unfold bindS. rewrite loopBody_run, IH.
    now rewrite <- app_assoc.
Qed.

Lemma pointsForWord_run_string U w h :
  pointsForWord_run U (JSStr w) h
  = (Normal (pointsForWord U w),
     h ++ map (fun _ => ORegExp vowelRegExp) (stringIterator w)).
Proof.
  unfold pointsForWord_run, bindS, lift. cbn [GetIterator].
  now rewrite forOf_run.
Qed.

(** On a value that is not a string the iteration throws and the store
    is as it was. *)
Example pointsForWord_run_undefined U h :
  pointsForWord_run U JSUndefined h = (Throw TypeError, h).
Proof. reflexivity. Qed.

(** C8: run in any store on any string, the call completes normally,
    without throwing, with an integer that is not negative; every
    object of the store is afterwards as it was before, the store
    having only gained the objects of the regular expression literals;
    and the result is the same in every store and under every case
    table of the runtime, so also when the call is made again. *)
Theorem pointsForWord_run_safe (U : CaseMapping) (h : Heap) (w : JSString) :
  exists (n : Z) (fresh : Heap),
    pointsForWord_run U (JSStr w) h = (Normal n, h ++ fresh)
    /\ 0 <= n
    /\ (forall ref o, nth_error h ref = Some o ->
                      nth_error (h ++ fresh) ref = Some o)
    /\ Forall (fun o => o = ORegExp vowelRegExp) fresh
    /\ (forall U2 h2, fst (pointsForWord_run U2 (JSStr w) h2) = Normal n)
    /\ fst (pointsForWord_run U (JSStr w) (h ++ fresh)) = Normal n.
Proof.
  exists (pointsForWord U w),
         (map (fun _ => ORegExp vowelRegExp) (stringIterator w)).
  split; [apply pointsForWord_run_string|].
  split; [apply pointsForWord_upper_bound|].
  split.
  { intros ref o Href. rewrite nth_error_app1; [assumption|].
    apply nth_error_Some. congruence. }
  split.
  { apply Forall_forall. intros o Hin. apply in_map_iff in Hin.
    now destruct Hin as (? & <- & _). }
  split.
  - intros U2 h2. rewrite pointsForWord_run_string. cbn [fst]. f_equal.
    now rewrite !pointsForWord_sum.
  - now rewrite pointsForWord_run_string.
Qed.

End Utils.
